(** * AtomicInt: a lock-guarded Go [int]

    A model of [types/atomic/int.go]: the [AtomicInt] struct, a Go [int]
    guarded by a [sync.RWMutex], and its method set.

    - Go's [int] is a two's-complement integer of 32 or 64 bits; values are
      kept in [Z] and every arithmetic result is wrapped explicitly.
    - A method body is a program over the atomic actions it performs on the
      struct ([Lock], [Unlock], [RLock], [RUnlock], a read of [val], a write
      of [val]).  The same program is run to completion by [run] (one caller)
      and interleaved action by action by [pool_step] (many goroutines). *)

From Stdlib Require Import ZArith Lia.
From stdpp Require Import base tactics option list relations.

Local Open Scope Z_scope.

(** ** Go's [int] *)

Inductive int_size : Set := Int32 | Int64.

Definition bits (sz : int_size) : Z :=
  match sz with Int32 => 32 | Int64 => 64 end.

Section GoInt.
Variable sz : int_size.

Definition modulus : Z := 2 ^ bits sz.
Definition half_modulus : Z := 2 ^ (bits sz - 1).
Definition MinInt : Z := - half_modulus.
Definition MaxInt : Z := half_modulus - 1.

(** The values an [int] variable can hold. *)
Definition is_int (z : Z) : Prop := MinInt <= z <= MaxInt.

(** The [int] that the mathematical integer [z] is truncated to. *)
Definition wrap (z : Z) : Z := (z + half_modulus) mod modulus - half_modulus.

(** Go's [x + y], [x - y] and [x * y] on [int]. *)
Definition int_add (x y : Z) : Z := wrap (x + y).
Definition int_sub (x y : Z) : Z := wrap (x - y).
Definition int_mul (x y : Z) : Z := wrap (x * y).

(** What an arithmetic that clamps at the bounds would store instead. *)
Definition saturate (z : Z) : Z := Z.max MinInt (Z.min MaxInt z).
End GoInt.

(** ** [sync.RWMutex] *)

Module sync.
Record RWMutex : Set := { writer : bool; readers : nat }.

(** The zero value of the struct: an unlocked mutex. *)
Definition zero : RWMutex := {| writer := false; readers := 0 |}.

(** The result of a call on the mutex: it returns, it has to wait, or it
    is the fatal error of unlocking a mutex that is not locked. *)
Inductive attempt : Set :=
| Acquired (m : RWMutex)
| Wait
| Panic.

Definition Lock (m : RWMutex) : attempt :=
  match writer m, readers m with
  | false, O => Acquired {| writer := true; readers := 0 |}
  | _, _ => Wait
  end.

Definition Unlock (m : RWMutex) : attempt :=
  if writer m then Acquired {| writer := false; readers := readers m |}
  else Panic.

Definition RLock (m : RWMutex) : attempt :=
  if writer m then Wait
  else Acquired {| writer := false; readers := S (readers m) |}.

Definition RUnlock (m : RWMutex) : attempt :=
  match readers m with
  | O => Panic
  | S n => Acquired {| writer := writer m; readers := n |}
  end.
End sync.

(** ** The struct *)

Record AtomicInt : Set := { val : Z; mutex : sync.RWMutex }.

Definition with_val (z : Z) (ai : AtomicInt) : AtomicInt :=
  {| val := z; mutex := mutex ai |}.
Definition with_mutex (m : sync.RWMutex) (ai : AtomicInt) : AtomicInt :=
  {| val := val ai; mutex := m |}.

(** ** Method bodies as programs over atomic actions *)

Inductive Prog (A : Type) : Type :=
| Ret (a : A)
| Lock (k : Prog A)
| Unlock (k : Prog A)
| RLock (k : Prog A)
| RUnlock (k : Prog A)
| LoadVal (k : Z -> Prog A)
| StoreVal (z : Z) (k : Prog A).
Arguments Ret {A} a.
Arguments Lock {A} k.
Arguments Unlock {A} k.
Arguments RLock {A} k.
Arguments RUnlock {A} k.
Arguments LoadVal {A} k.
Arguments StoreVal {A} z k.

Fixpoint prog_bind {A B : Type} (f : A -> Prog B) (p : Prog A) : Prog B :=
  match p with
  | Ret a => f a
  | Lock k => Lock (prog_bind f k)
  | Unlock k => Unlock (prog_bind f k)
  | RLock k => RLock (prog_bind f k)
  | RUnlock k => RUnlock (prog_bind f k)
  | LoadVal k => LoadVal (fun v => prog_bind f (k v))
  | StoreVal z k => StoreVal z (prog_bind f k)
  end.

#[export] Instance prog_ret : MRet Prog := @Ret.
#[export] Instance prog_mbind : MBind Prog := @prog_bind.

Definition mutex_Lock : Prog unit := Lock (Ret tt).
Definition mutex_Unlock : Prog unit := Unlock (Ret tt).
Definition mutex_RLock : Prog unit := RLock (Ret tt).
Definition mutex_RUnlock : Prog unit := RUnlock (Ret tt).
Definition load_val : Prog Z := LoadVal Ret.
Definition store_val (z : Z) : Prog unit := StoreVal z (Ret tt).

(** [defer d] around the rest of a body: the operands of [return] are
    evaluated first, the deferred call runs next, then the method returns. *)
Definition defer {A : Type} (d : Prog unit) (body : Prog A) : Prog A :=
  a ← body; d;; mret a.

(** NewAtomicInt generates a new AtomicInt instance. *)
Definition NewAtomicInt (value : Z) : AtomicInt :=
  {| val := value; mutex := sync.zero |}.

Section Methods.
Variable sz : int_size.

Definition AddAndGet (delta : Z) : Prog Z :=
  mutex_Lock;;
  defer mutex_Unlock (
    v ← load_val; store_val (int_add sz v delta);;
    load_val).

Definition CompareAndSet (expect update : Z) : Prog bool :=
  mutex_Lock;;
  defer mutex_Unlock (
    v ← load_val;
    if v =? expect then store_val update;; mret true
    else mret false).

Definition DecrementAndGet : Prog Z :=
  mutex_Lock;;
  defer mutex_Unlock (
    v ← load_val; store_val (int_sub sz v 1);;
    load_val).

Definition Get : Prog Z :=
  mutex_RLock;;
  defer mutex_RUnlock load_val.

Definition GetAndAdd (delta : Z) : Prog Z :=
  mutex_Lock;;
  defer mutex_Unlock (
    old ← load_val;
    v ← load_val; store_val (int_add sz v delta);;
    mret old).

Definition GetAndDecrement : Prog Z :=
  mutex_Lock;;
  defer mutex_Unlock (
    old ← load_val;
    v ← load_val; store_val (int_sub sz v 1);;
    mret old).

Definition GetAndIncrement : Prog Z :=
  mutex_Lock;;
  defer mutex_Unlock (
    old ← load_val;
    v ← load_val; store_val (int_add sz v 1);;
    mret old).

Definition GetAndSet (newValue : Z) : Prog Z :=
  mutex_Lock;;
  defer mutex_Unlock (
    old ← load_val;
    store_val newValue;;
    mret old).

Definition IncrementAndGet : Prog Z :=
  mutex_Lock;;
  defer mutex_Unlock (
    v ← load_val; store_val (int_add sz v 1);;
    load_val).

Definition Set_ (newValue : Z) : Prog unit :=
  mutex_Lock;;
  defer mutex_Unlock (store_val newValue).
End Methods.

(** ** One atomic action *)

Inductive step_result (A : Type) : Type :=
| Next (p : Prog A) (ai : AtomicInt)
| Returns (a : A)
| Waits
| Panics.
Arguments Next {A} p ai.
Arguments Returns {A} a.
Arguments Waits {A}.
Arguments Panics {A}.

Definition on_mutex {A : Type} (k : Prog A) (ai : AtomicInt)
    (r : sync.attempt) : step_result A :=
  match r with
  | sync.Acquired m => Next k (with_mutex m ai)
  | sync.Wait => Waits
  | sync.Panic => Panics
  end.

Definition step1 {A : Type} (p : Prog A) (ai : AtomicInt) : step_result A :=
  match p with
  | Ret a => Returns a
  | Lock k => on_mutex k ai (sync.Lock (mutex ai))
  | Unlock k => on_mutex k ai (sync.Unlock (mutex ai))
  | RLock k => on_mutex k ai (sync.RLock (mutex ai))
  | RUnlock k => on_mutex k ai (sync.RUnlock (mutex ai))
  | LoadVal k => Next (k (val ai)) ai
  | StoreVal z k => Next k (with_val z ai)
  end.

(** ** A call by a single caller, run to its return *)

Inductive outcome (A : Type) : Type :=
| Done (a : A) (ai : AtomicInt)
| Blocked
| Fatal.
Arguments Done {A} a ai.
Arguments Blocked {A}.
Arguments Fatal {A}.

Fixpoint run {A : Type} (p : Prog A) (ai : AtomicInt) : outcome A :=
  let go k r :=
    match r with
    | sync.Acquired m => run k (with_mutex m ai)
    | sync.Wait => Blocked
    | sync.Panic => Fatal
    end in
  match p with
  | Ret a => Done a ai
  | Lock k => go k (sync.Lock (mutex ai))
  | Unlock k => go k (sync.Unlock (mutex ai))
  | RLock k => go k (sync.RLock (mutex ai))
  | RUnlock k => go k (sync.RUnlock (mutex ai))
  | LoadVal k => run (k (val ai)) ai
  | StoreVal z k => run k (with_val z ai)
  end.

(** ** Calls made one after the other by one caller *)

(** The scenario of the specification's section 8, on a fresh
    [NewAtomicInt 5]: the seven results, in order. *)
Definition scenario (sz : int_size) : Prog (Z * bool * Z * bool * Z * Z * Z) :=
  r1 ← AddAndGet sz 3;
  r2 ← CompareAndSet 8 10;
  r3 ← Get;
  r4 ← CompareAndSet 8 99;
  r5 ← Get;
  r6 ← GetAndIncrement sz;
  r7 ← Get;
  mret (r1, r2, r3, r4, r5, r6, r7).

(** ** The method set as one call interface *)

Inductive Op : Set :=
| OpGet
| OpSet (v : Z)
| OpGetAndSet (v : Z)
| OpAddAndGet (d : Z)
| OpGetAndAdd (d : Z)
| OpIncrementAndGet
| OpGetAndIncrement
| OpDecrementAndGet
| OpGetAndDecrement
| OpCompareAndSet (expect update : Z).

Inductive result : Set :=
| RInt (z : Z)
| RBool (b : bool)
| RNone.

Definition call (sz : int_size) (o : Op) : Prog result :=
  match o with
  | OpGet => r ← Get; mret (RInt r)
  | OpSet v => Set_ v;; mret RNone
  | OpGetAndSet v => r ← GetAndSet v; mret (RInt r)
  | OpAddAndGet d => r ← AddAndGet sz d; mret (RInt r)
  | OpGetAndAdd d => r ← GetAndAdd sz d; mret (RInt r)
  | OpIncrementAndGet => r ← IncrementAndGet sz; mret (RInt r)
  | OpGetAndIncrement => r ← GetAndIncrement sz; mret (RInt r)
  | OpDecrementAndGet => r ← DecrementAndGet sz; mret (RInt r)
  | OpGetAndDecrement => r ← GetAndDecrement sz; mret (RInt r)
  | OpCompareAndSet e u => r ← CompareAndSet e u; mret (RBool r)
  end.

(** The table of section 4.1 of the specification, column "Effect": the
    value held after the operation, from the value [v] held before. *)
Definition table_effect (sz : int_size) (o : Op) (v : Z) : Z :=
  match o with
  | OpGet => v
  | OpSet w => w
  | OpGetAndSet w => w
  | OpAddAndGet d => int_add sz v d
  | OpGetAndAdd d => int_add sz v d
  | OpIncrementAndGet => int_add sz v 1
  | OpGetAndIncrement => int_add sz v 1
  | OpDecrementAndGet => int_sub sz v 1
  | OpGetAndDecrement => int_sub sz v 1
  | OpCompareAndSet e u => if v =? e then u else v
  end.

(** The same table, column "Returns". *)
Definition table_returns (sz : int_size) (o : Op) (v : Z) : result :=
  match o with
  | OpGet => RInt v
  | OpSet _ => RNone
  | OpGetAndSet _ => RInt v
  | OpAddAndGet d => RInt (int_add sz v d)
  | OpGetAndAdd _ => RInt v
  | OpIncrementAndGet => RInt (int_add sz v 1)
  | OpGetAndIncrement => RInt v
  | OpDecrementAndGet => RInt (int_sub sz v 1)
  | OpGetAndDecrement => RInt v
  | OpCompareAndSet e _ => RBool (v =? e)
  end.

(** ** Goroutines sharing one [AtomicInt] *)

(** A goroutine that calls [IncrementAndGet] [m] times and drops the
    results. *)
Fixpoint calls (sz : int_size) (m : nat) : Prog unit :=
  match m with
  | O => mret tt
  | S m' => IncrementAndGet sz;; calls sz m'
  end.

(** The shared struct and what is left to run of each goroutine. *)
Definition pool : Type := AtomicInt * list (Prog unit).

(** The scheduler picks any goroutine whose next action can be taken. A
    goroutine waiting for the mutex, or one that has returned, takes no
    step. *)
Inductive pool_step : relation pool :=
| pool_step_at (ai ai' : AtomicInt) (ts : list (Prog unit)) (i : nat)
    (p p' : Prog unit) :
    ts !! i = Some p ->
    step1 p ai = Next p' ai' ->
    pool_step (ai, ts) (ai', <[i:=p']> ts).

Definition spawn (sz : int_size) (N M : nat) : pool :=
  (NewAtomicInt 0, replicate N (calls sz M)).

Definition finished (ts : list (Prog unit)) : Prop :=
  Forall (fun t => t = Ret tt) ts.

(** Where a goroutine of [spawn] stands: between two calls with [k] calls
    left, or inside a call (with [k] calls left after it) having locked,
    read [v], written, read the result, in this order. *)
Inductive phase : Set :=
| Idle (k : nat)
| Locked (k : nat)
| Loaded (k : nat) (v : Z)
| Stored (k : nat)
| Read (k : nat).

Definition term_of (sz : int_size) (ph : phase) : Prog unit :=
  match ph with
  | Idle k => calls sz k
  | Locked k =>
      LoadVal (fun v => StoreVal (int_add sz v 1)
                 (LoadVal (fun _ => Unlock (calls sz k))))
  | Loaded k v =>
      StoreVal (int_add sz v 1) (LoadVal (fun _ => Unlock (calls sz k)))
  | Stored k => LoadVal (fun _ => Unlock (calls sz k))
  | Read k => Unlock (calls sz k)
  end.

Definition phase_step (sz : int_size) (ph : phase) (ai : AtomicInt)
    : option (phase * AtomicInt) :=
  match ph with
  | Idle O => None
  | Idle (S k) =>
      match sync.Lock (mutex ai) with
      | sync.Acquired m => Some (Locked k, with_mutex m ai)
      | _ => None
      end
  | Locked k => Some (Loaded k (val ai), ai)
  | Loaded k v => Some (Stored k, with_val (int_add sz v 1) ai)
  | Stored k => Some (Read k, ai)
  | Read k =>
      match sync.Unlock (mutex ai) with
      | sync.Acquired m => Some (Idle k, with_mutex m ai)
      | _ => None
      end
  end.

(** Whether the goroutine holds the write lock. *)
Definition holds (ph : phase) : Z :=
  match ph with Idle _ => 0 | _ => 1 end.

(** Increments the goroutine has still to write. *)
Definition pending (ph : phase) : Z :=
  match ph with
  | Idle k | Stored k | Read k => Z.of_nat k
  | Locked k | Loaded k _ => Z.of_nat (S k)
  end.

(** Atomic actions the goroutine has still to take. *)
Definition actions_left (ph : phase) : Z :=
  match ph with
  | Idle k => 5 * Z.of_nat k
  | Locked k => 5 * Z.of_nat k + 4
  | Loaded k _ => 5 * Z.of_nat k + 3
  | Stored k => 5 * Z.of_nat k + 2
  | Read k => 5 * Z.of_nat k + 1
  end.

Definition total (f : phase -> Z) (phs : list phase) : Z :=
  foldr (fun ph acc => f ph + acc) 0 phs.

(** What holds of every pool reached from [spawn sz N M], with [T = N * M]. *)
Record pool_inv (sz : int_size) (T : Z) (ai : AtomicInt) (phs : list phase)
    : Prop := {
  inv_readers : sync.readers (mutex ai) = O;
  inv_int : is_int sz (val ai);
  inv_sum : wrap sz (val ai + total pending phs) = wrap sz T;
  inv_lock : total holds phs = if sync.writer (mutex ai) then 1 else 0;
  inv_loaded : forall i k v, phs !! i = Some (Loaded k v) -> v = val ai
}.

(** A pool whose goroutines stand at phases [phs] that satisfy [pool_inv],
    with [L] atomic actions left to take in all. *)
Definition pool_ok (sz : int_size) (T L : Z) (c : pool) : Prop :=
  exists phs : list phase,
    c.2 = term_of sz <$> phs
    /\ pool_inv sz T c.1 phs
    /\ total actions_left phs = L.

(** The struct holding [v] while no caller is inside a method. *)
Definition at_rest (v : Z) : AtomicInt := {| val := v; mutex := sync.zero |}.

(** ** Calls in any state of the mutex, and lists of calls *)

(** Go's [-x] on [int]. *)
Definition int_neg (sz : int_size) (x : Z) : Z := wrap sz (- x).

(** The lock a method takes: [Get] the read lock, every other method the
    write lock. *)
Definition takes_read_lock (o : Op) : bool :=
  match o with OpGet => true | _ => false end.


(** The arguments of a call are [int]s, as the method's signature has them. *)
Definition Op_is_int (sz : int_size) (o : Op) : Prop :=
  match o with
  | OpSet v | OpGetAndSet v | OpAddAndGet v | OpGetAndAdd v => is_int sz v
  | OpCompareAndSet e u => is_int sz e /\ is_int sz u
  | _ => True
  end.

Definition result_is_int (sz : int_size) (r : result) : Prop :=
  match r with RInt z => is_int sz z | _ => True end.

(** A caller that makes the calls [ops] in order and appends each result
    to [acc]. *)
Fixpoint script (sz : int_size) (ops : list Op) (acc : list result)
    : Prog (list result) :=
  match ops with
  | [] => mret acc
  | o :: ops' => r ← call sz o; script sz ops' (acc ++ [r])
  end.

(** The value left, and the results returned, by the calls [ops] made one
    after the other on a struct holding [v], computed from the method
    bodies' effect on the value alone. *)
Fixpoint value_after (sz : int_size) (ops : list Op) (v : Z) : Z :=
  match ops with
  | [] => v
  | o :: ops' => value_after sz ops' (table_effect sz o v)
  end.

Fixpoint results_after (sz : int_size) (ops : list Op) (v : Z) : list result :=
  match ops with
  | [] => []
  | o :: ops' =>
      table_returns sz o v :: results_after sz ops' (table_effect sz o v)
  end.

(** ** Goroutines that make any calls *)

(** The shared struct and, for each goroutine, what is left of its script. *)
Definition team : Type := AtomicInt * list (Prog (list result)).

Inductive team_step : relation team :=
| team_step_at (ai ai' : AtomicInt) (ts : list (Prog (list result)))
    (i : nat) (p p' : Prog (list result)) :
    ts !! i = Some p ->
    step1 p ai = Next p' ai' ->
    team_step (ai, ts) (ai', <[i:=p']> ts).

(** Goroutine [i] is to make the calls [opss !! i] on one struct that
    holds [v]. *)
Definition start (sz : int_size) (v : Z) (opss : list (list Op)) : team :=
  (at_rest v, (fun ops => script sz ops []) <$> opss).

(** The entries of goroutine [i] in a list tagged with goroutine numbers. *)
Fixpoint mine {X : Type} (i : nat) (l : list (nat * X)) : list X :=
  match l with
  | [] => []
  | (j, x) :: l' => if decide (j = i) then x :: mine i l' else mine i l'
  end.

(** A goroutine between two calls, inside a writing method, or inside
    [Get]; [todo] are the calls to make after the current one and [got] the
    results up to and with the current one. *)
Inductive place : Type :=
| Out (todo : list Op) (got : list result)
| InW (t : Prog (list result)) (todo : list Op) (got : list result)
| InR (t : Prog (list result)) (todo : list Op) (got : list result).

Definition place_term (sz : int_size) (a : place) : Prog (list result) :=
  match a with
  | Out todo got => script sz todo got
  | InW t _ _ | InR t _ _ => t
  end.

Definition todo_of (a : place) : list Op :=
  match a with Out todo _ | InW _ todo _ | InR _ todo _ => todo end.

Definition got_of (a : place) : list result :=
  match a with Out _ got | InW _ _ got | InR _ _ got => got end.

(** [t] is the rest of a writing method's body: with [v] in [val] now, it
    reads and writes [val], unlocks with [val] at [L], and goes on as
    [kont]. *)
Fixpoint wcrit {A : Type} (t : Prog A) (v L : Z) (kont : Prog A) : Prop :=
  match t with
  | Unlock k => v = L /\ k = kont
  | LoadVal f => wcrit (f v) v L kont
  | StoreVal z k => wcrit k z L kont
  | _ => False
  end.

(** [t] is the rest of the body of [Get]: it reads [val], releases the read
    lock and goes on as [kont]. *)
Fixpoint rcrit {A : Type} (t : Prog A) (v : Z) (kont : Prog A) : Prop :=
  match t with
  | RUnlock k => k = kont
  | LoadVal f => rcrit (f v) v kont
  | _ => False
  end.

(** Atomic actions left in the body [t], the unlock included. *)
Fixpoint crit_left {A : Type} (t : Prog A) (v : Z) : Z :=
  match t with
  | Unlock _ | RUnlock _ => 1
  | LoadVal f => 1 + crit_left (f v) v
  | StoreVal z k => 1 + crit_left k z
  | _ => 0
  end.

Definition place_ok (sz : int_size) (v L : Z) (a : place) : Prop :=
  match a with
  | Out _ _ => True
  | InW t todo got => wcrit t v L (script sz todo got)
  | InR t todo got => rcrit t v (script sz todo got)
  end.

Definition isW (a : place) : Z := match a with InW _ _ _ => 1 | _ => 0 end.
Definition isR (a : place) : Z := match a with InR _ _ _ => 1 | _ => 0 end.

(** A bound on the atomic actions the goroutine has still to take: a call
    takes five at most. *)
Definition place_left (v : Z) (a : place) : Z :=
  match a with
  | Out todo _ => 5 * Z.of_nat (length todo)
  | InW t todo _ | InR t todo _ => crit_left t v + 5 * Z.of_nat (length todo)
  end.

Definition sum_over {A : Type} (f : A -> Z) (l : list A) : Z :=
  foldr (fun a acc => f a + acc) 0 l.

(** What holds of every team reached from [start sz v0 opss]: [h] lists
    the calls in the order in which they took their lock, each with the
    number of its goroutine. *)
Record team_inv (sz : int_size) (v0 : Z) (opss : list (list Op))
    (ai : AtomicInt) (ps : list place) (h : list (nat * Op)) : Prop := {
  ti_len : length ps = length opss;
  ti_ids : Forall (fun e => (e.1 < length opss)%nat) h;
  ti_hist : forall i a, ps !! i = Some a ->
    opss !! i = Some (mine i h ++ todo_of a)
    /\ got_of a = mine i (zip h.*1 (results_after sz h.*2 v0));
  ti_ok : forall i a, ps !! i = Some a ->
    place_ok sz (val ai) (value_after sz h.*2 v0) a;
  ti_w : sum_over isW ps = if sync.writer (mutex ai) then 1 else 0;
  ti_r : sum_over isR ps = Z.of_nat (sync.readers (mutex ai));
  ti_wr : sync.writer (mutex ai) = true -> sync.readers (mutex ai) = O;
  ti_val : sync.writer (mutex ai) = false ->
    val ai = value_after sz h.*2 v0
}.

(** A team that satisfies the invariant, with at most [L] atomic actions
    left to take. *)
Definition team_ok (sz : int_size) (v0 : Z) (opss : list (list Op)) (L : Z)
    (c : team) : Prop :=
  exists (ps : list place) (h : list (nat * Op)),
    c.2 = place_term sz <$> ps
    /\ team_inv sz v0 opss c.1 ps h
    /\ sum_over (place_left (val c.1)) ps <= L.

(** The next action of a goroutine: a write of [val]; a lock or the return
    of its script, that is, no action inside a method. *)
Definition writes {A : Type} (t : Prog A) : Prop :=
  match t with StoreVal _ _ => True | _ => False end.

Definition outside {A : Type} (t : Prog A) : Prop :=
  match t with Ret _ | Lock _ | RLock _ => True | _ => False end.

(** The amount a call adds to the value, for the methods that add. *)
Definition delta_of (o : Op) : option Z :=
  match o with
  | OpGet => Some 0
  | OpAddAndGet d | OpGetAndAdd d => Some d
  | OpIncrementAndGet | OpGetAndIncrement => Some 1
  | OpDecrementAndGet | OpGetAndDecrement => Some (-1)
  | _ => None
  end.

Definition delta_sum (ops : list Op) : Z :=
  foldr (fun o acc => default 0 (delta_of o) + acc) 0 ops.

(** * Properties *)

(** ** Go's [int] *)

Section GoIntFacts.
Variable sz : int_size.

Lemma modulus_half : modulus sz = 2 * half_modulus sz.
Proof. destruct sz; reflexivity. Qed.

Lemma half_modulus_pos : 0 < half_modulus sz.
Proof. destruct sz; reflexivity. Qed.

Lemma modulus_pos : 0 < modulus sz.
Proof. rewrite modulus_half. pose proof half_modulus_pos. lia. Qed.

Lemma wrap_is_int (z : Z) : is_int sz (wrap sz z).
Proof.
  unfold is_int, wrap, MinInt, MaxInt.
  pose proof (Z.mod_pos_bound (z + half_modulus sz) _ modulus_pos).
  pose proof modulus_half. lia.
Qed.

Lemma wrap_id (z : Z) : is_int sz z -> wrap sz z = z.
Proof.
  unfold is_int, wrap, MinInt, MaxInt. intros Hz.
  pose proof modulus_half.
  rewrite Z.mod_small by lia. lia.
Qed.

Lemma wrap_quot (z : Z) : exists q, wrap sz z = z + q * modulus sz.
Proof.
  exists (- ((z + half_modulus sz) / modulus sz)). unfold wrap.
  pose proof (Z.div_mod (z + half_modulus sz) (modulus sz)) as E.
  pose proof modulus_pos. lia.
Qed.

Lemma wrap_shift (z q : Z) : wrap sz (z + q * modulus sz) = wrap sz z.
Proof.
  unfold wrap. f_equal.
  replace (z + q * modulus sz + half_modulus sz)
    with (z + half_modulus sz + q * modulus sz) by lia.
  apply Z.mod_add. pose proof modulus_pos. lia.
Qed.

Lemma wrap_add_l (a b : Z) : wrap sz (wrap sz a + b) = wrap sz (a + b).
Proof.
  destruct (wrap_quot a) as [q ->].
  replace (a + q * modulus sz + b) with (a + b + q * modulus sz) by lia.
  apply wrap_shift.
Qed.

Lemma wrap_congr (z : Z) : (wrap sz z - z) mod modulus sz = 0.
Proof.
  destruct (wrap_quot z) as [q ->].
  replace (z + q * modulus sz - z) with (q * modulus sz) by lia.
  apply Z.mod_mul. pose proof modulus_pos. lia.
Qed.

(** Past either bound the truncated sum of two [int]s sits on the other
    side of zero, where a clamped sum never is. *)
Lemma wrap_not_saturate (x y : Z) :
  is_int sz x -> is_int sz y -> ~ is_int sz (x + y) ->
  wrap sz (x + y) <> saturate sz (x + y).
Proof.
  unfold is_int, saturate, MinInt, MaxInt. intros Hx Hy Hxy.
  pose proof half_modulus_pos. pose proof modulus_half as Hm.
  assert (x + y < - half_modulus sz \/ half_modulus sz - 1 < x + y)
    as [Hlo|Hhi] by lia.
  - rewrite <- (wrap_shift (x + y) 1).
    rewrite wrap_id by (unfold is_int, MinInt, MaxInt; lia). lia.
  - rewrite <- (wrap_shift (x + y) (-1)).
    rewrite wrap_id by (unfold is_int, MinInt, MaxInt; lia). lia.
Qed.
End GoIntFacts.

(** ** Running programs *)

Lemma run_bind {A B : Type} (p : Prog A) (f : A -> Prog B) (ai : AtomicInt) :
  run (p ≫= f) ai =
  match run p ai with
  | Done a ai' => run (f a) ai'
  | Blocked => Blocked
  | Fatal => Fatal
  end.
Proof.
  revert ai.
  induction p as [a|k IH|k IH|k IH|k IH|k IH|z k IH]; intros ai; cbn;
    try reflexivity; try apply IH.
  - destruct (sync.Lock (mutex ai)); [apply IH|reflexivity..].
  - destruct (sync.Unlock (mutex ai)); [apply IH|reflexivity..].
  - destruct (sync.RLock (mutex ai)); [apply IH|reflexivity..].
  - destruct (sync.RUnlock (mutex ai)); [apply IH|reflexivity..].
Qed.

(** One action of a program that can be taken, then the rest, is the run
    of the whole. *)
Lemma run_step1 {A : Type} (p p' : Prog A) (ai ai' : AtomicInt) :
  step1 p ai = Next p' ai' -> run p ai = run p' ai'.
Proof.
  destruct p; cbn; try congruence;
    try (match goal with |- context [on_mutex _ _ ?r] => destruct r end;
         cbn; congruence).
Qed.

(** A goroutine alone on the struct, scheduled action by action until it
    returns, does what [run] does. *)
Lemma run_alone (n : nat) (p : Prog unit) (ai ai' : AtomicInt) :
  nsteps pool_step n (ai, [p]) (ai', [Ret tt]) -> run p ai = Done tt ai'.
Proof.
  revert p ai. induction n as [|n IH]; intros p ai Hn.
  - inversion Hn; subst. reflexivity.
  - inversion Hn as [|? ? c1 ? Hstep Hrest]; subst.
    inversion Hstep as [? ai1 ? i p0 p1 Hi Hp]; subst.
    destruct i as [|i]; [|discriminate]. injection Hi as ->.
    rewrite (run_step1 _ _ _ _ Hp). apply IH, Hrest.
Qed.

Lemma NewAtomicInt_at_rest (value : Z) : NewAtomicInt value = at_rest value.
Proof. reflexivity. Qed.

(** ** The methods, called by one caller *)

(** C1. [CompareAndSet expect update] on a struct holding [v]: when
    [v = expect] it returns [true] and the struct holds [update]; when
    [v <> expect] it returns [false] and the struct still holds [v]. Hence
    it returns [true] exactly when [v = expect]. *)
Theorem CompareAndSet_spec (v expect update : Z) :
  (v = expect ->
   run (CompareAndSet expect update) (at_rest v) = Done true (at_rest update))
  /\ (v <> expect ->
      run (CompareAndSet expect update) (at_rest v) = Done false (at_rest v))
  /\ (forall b ai',
        run (CompareAndSet expect update) (at_rest v) = Done b ai' ->
        (b = true <-> v = expect)).
Proof.
  assert (run (CompareAndSet expect update) (at_rest v) =
          if v =? expect then Done true (at_rest update)
          else Done false (at_rest v)) as E.
  { cbn. destruct (v =? expect); reflexivity. }
  rewrite E. destruct (Z.eqb_spec v expect) as [Heq|Hne].
  - repeat split; congruence.
  - repeat split; congruence.
Qed.

(** C2. On a struct holding [v], [AddAndGet d] stores and returns [v + d],
    [IncrementAndGet] stores and returns [v + 1], [DecrementAndGet] stores
    and returns [v - 1]: the sum and difference are Go's, on [int], and are
    the integers [v + d], [v + 1], [v - 1] themselves whenever these fit
    an [int]. *)
Theorem AddAndGet_spec (sz : int_size) (v d : Z) :
  run (AddAndGet sz d) (at_rest v)
    = Done (int_add sz v d) (at_rest (int_add sz v d))
  /\ run (IncrementAndGet sz) (at_rest v)
    = Done (int_add sz v 1) (at_rest (int_add sz v 1))
  /\ run (DecrementAndGet sz) (at_rest v)
    = Done (int_sub sz v 1) (at_rest (int_sub sz v 1))
  /\ (is_int sz (v + d) -> int_add sz v d = v + d)
  /\ (is_int sz (v + 1) -> int_add sz v 1 = v + 1)
  /\ (is_int sz (v - 1) -> int_sub sz v 1 = v - 1).
Proof.
  repeat split; try reflexivity; apply wrap_id.
Qed.

(** C3. On a struct holding [v], [GetAndAdd d] returns [v] and stores
    [v + d], [GetAndIncrement] returns [v] and stores [v + 1],
    [GetAndDecrement] returns [v] and stores [v - 1]: the sum and difference
    are Go's, on [int], and are the integers themselves whenever these fit
    an [int]. *)
Theorem GetAndAdd_spec (sz : int_size) (v d : Z) :
  run (GetAndAdd sz d) (at_rest v) = Done v (at_rest (int_add sz v d))
  /\ run (GetAndIncrement sz) (at_rest v) = Done v (at_rest (int_add sz v 1))
  /\ run (GetAndDecrement sz) (at_rest v) = Done v (at_rest (int_sub sz v 1))
  /\ (is_int sz (v + d) -> int_add sz v d = v + d)
  /\ (is_int sz (v + 1) -> int_add sz v 1 = v + 1)
  /\ (is_int sz (v - 1) -> int_sub sz v 1 = v - 1).
Proof.
  repeat split; try reflexivity; apply wrap_id.
Qed.

(** C4. On a struct holding [v], [GetAndSet w] returns [v], and a [Get]
    called next returns [w]. *)
Theorem GetAndSet_then_Get (v w : Z) :
  exists ai',
    run (GetAndSet w) (at_rest v) = Done v ai'
    /\ run Get ai' = Done w ai'.
Proof. exists (at_rest w). split; reflexivity. Qed.

(** C5. The struct made by [NewAtomicInt initial] holds [initial]: a [Get]
    on it, before any other call, returns [initial]. *)
Theorem NewAtomicInt_Get (initial : Z) :
  val (NewAtomicInt initial) = initial
  /\ run Get (NewAtomicInt initial) = Done initial (NewAtomicInt initial).
Proof. split; reflexivity. Qed.

(** C6. On a struct holding the [int] [v], [IncrementAndGet] followed at
    once by [DecrementAndGet]: the decrement returns [v] and the struct
    holds [v] again, also when the increment wrapped. *)
Theorem Increment_then_Decrement (sz : int_size) (v : Z) :
  is_int sz v ->
  exists r ai',
    run (IncrementAndGet sz) (at_rest v) = Done r ai'
    /\ run (DecrementAndGet sz) ai' = Done v (at_rest v).
Proof.
  intros Hv. exists (int_add sz v 1), (at_rest (int_add sz v 1)).
  split; [reflexivity|].
  assert (int_sub sz (int_add sz v 1) 1 = v) as E.
  { unfold int_sub, int_add.
    replace (wrap sz (v + 1) - 1) with (wrap sz (v + 1) + -1) by lia.
    rewrite wrap_add_l. replace (v + 1 + -1) with v by lia.
    apply wrap_id, Hv. }
  cbn. rewrite E. reflexivity.
Qed.

Lemma Increment_then_Decrement_witness :
  is_int Int64 9223372036854775807 /\
  exists r ai',
    run (IncrementAndGet Int64) (at_rest 9223372036854775807) = Done r ai'
    /\ run (DecrementAndGet Int64) ai'
       = Done 9223372036854775807 (at_rest 9223372036854775807).
Proof.
  assert (is_int Int64 9223372036854775807) as H.
  { unfold is_int; vm_compute; split; discriminate. }
  split; [exact H|].
  exact (Increment_then_Decrement Int64 9223372036854775807 H).
Defined.

(** C7. From [NewAtomicInt 5], the calls [AddAndGet 3], [CompareAndSet 8 10],
    [Get], [CompareAndSet 8 99], [Get], [GetAndIncrement], [Get], made in
    this order by one caller, return 8, true, 10, false, 10, 10, 11: as one
    program, and call by call, each on the struct the call before left. *)
Theorem scenario_results (sz : int_size) :
  run (scenario sz) (NewAtomicInt 5)
  = Done (8, true, 10, false, 10, 10, 11) (at_rest 11)
  /\ exists a1 a2 a3 a4 a5 a6 a7 : AtomicInt,
      run (AddAndGet sz 3) (NewAtomicInt 5) = Done 8 a1
      /\ run (CompareAndSet 8 10) a1 = Done true a2
      /\ run Get a2 = Done 10 a3
      /\ run (CompareAndSet 8 99) a3 = Done false a4
      /\ run Get a4 = Done 10 a5
      /\ run (GetAndIncrement sz) a5 = Done 10 a6
      /\ run Get a6 = Done 11 a7.
Proof.
  split.
  - destruct sz; vm_compute; reflexivity.
  - exists (at_rest 8), (at_rest 10), (at_rest 10), (at_rest 10), (at_rest 10),
      (at_rest 11), (at_rest 11).
    destruct sz; vm_compute; repeat split.
Qed.

(** C8. A call changes nothing but the stored value. [Get] leaves the
    struct as it found it, with whatever readers are inside; and every
    method, on a struct holding [v], returns what the table of section 4.1
    gives and leaves a struct that holds the table's value, its mutex
    unlocked as before. *)
Theorem only_val_changes (sz : int_size) (v : Z) :
  (forall n : nat,
     let ai := {| val := v;
                  mutex := {| sync.writer := false; sync.readers := n |} |} in
     run Get ai = Done v ai)
  /\ (forall o : Op,
        run (call sz o) (at_rest v)
        = Done (table_returns sz o v) (at_rest (table_effect sz o v))).
Proof.
  split.
  - intros n. reflexivity.
  - intros [ |w|w|d|d| | | | |e u]; try reflexivity.
    cbn. destruct (v =? e); reflexivity.
Qed.

(** C10. The arithmetic of the six adding methods wraps at the width of
    Go's [int]: on a struct holding the [int] [v], with [d] an [int], each
    call returns (no wait, no fatal error) and stores the [int] congruent
    to [v + d] (to [v + 1], [v - 1]) modulo [2 ^ bits]; where the sum
    leaves the range, what is stored is not the bound a clamping sum
    gives. *)
Theorem arithmetic_wraps (sz : int_size) (v d : Z) :
  is_int sz v -> is_int sz d ->
  (run (AddAndGet sz d) (at_rest v)
     = Done (wrap sz (v + d)) (at_rest (wrap sz (v + d)))
   /\ run (GetAndAdd sz d) (at_rest v) = Done v (at_rest (wrap sz (v + d)))
   /\ run (IncrementAndGet sz) (at_rest v)
     = Done (wrap sz (v + 1)) (at_rest (wrap sz (v + 1)))
   /\ run (GetAndIncrement sz) (at_rest v) = Done v (at_rest (wrap sz (v + 1)))
   /\ run (DecrementAndGet sz) (at_rest v)
     = Done (wrap sz (v - 1)) (at_rest (wrap sz (v - 1)))
   /\ run (GetAndDecrement sz) (at_rest v) = Done v (at_rest (wrap sz (v - 1))))
  /\ (forall z : Z,
        is_int sz (wrap sz z)
        /\ (wrap sz z - z) mod 2 ^ bits sz = 0
        /\ (is_int sz z -> wrap sz z = z))
  /\ (~ is_int sz (v + d) -> wrap sz (v + d) <> saturate sz (v + d))
  /\ (~ is_int sz (v + 1) -> wrap sz (v + 1) <> saturate sz (v + 1))
  /\ (~ is_int sz (v - 1) -> wrap sz (v - 1) <> saturate sz (v - 1)).
Proof.
  intros Hv Hd.
  assert (is_int sz 1) as H1 by (destruct sz; vm_compute; split; discriminate).
  assert (is_int sz (-1)) as Hm1
    by (destruct sz; vm_compute; split; discriminate).
  split; [repeat split|split; [|split; [|split]]].
  - intros z. split; [apply wrap_is_int|]. split; [apply wrap_congr|].
    apply wrap_id.
  - apply wrap_not_saturate; assumption.
  - apply wrap_not_saturate; assumption.
  - replace (v - 1) with (v + -1) by lia. apply wrap_not_saturate; assumption.
Qed.

Lemma arithmetic_wraps_witness :
  run (AddAndGet Int32 1) (at_rest 2147483647)
  = Done (-2147483648) (at_rest (-2147483648))
  /\ wrap Int32 (2147483647 + 1) <> saturate Int32 (2147483647 + 1).
Proof.
  assert (is_int Int32 2147483647) as Hv
    by (vm_compute; split; discriminate).
  assert (is_int Int32 1) as Hd by (vm_compute; split; discriminate).
  pose proof (arithmetic_wraps Int32 2147483647 1 Hv Hd)
    as [[Hrun _] [_ [Hsat _]]].
  split; [exact Hrun|].
  apply Hsat. vm_compute. intros [_ Hhi]. apply Hhi. reflexivity.
Defined.

(** ** Goroutines: sums over the phases *)

Section Totals.
Variable f : phase -> Z.

Lemma total_insert (phs : list phase) (i : nat) (ph ph' : phase) :
  phs !! i = Some ph ->
  total f (<[i:=ph']> phs) = total f phs - f ph + f ph'.
Proof.
  unfold total. revert i.
  induction phs as [|a phs IH]; intros [|i] Hi; simpl in *; try discriminate.
  - injection Hi as ->. lia.
  - rewrite (IH i Hi). lia.
Qed.

Lemma total_replicate (n : nat) (ph : phase) :
  total f (replicate n ph) = Z.of_nat n * f ph.
Proof.
  unfold total. induction n as [|n IH]; cbn -[Z.of_nat]; [reflexivity|]. lia.
Qed.

Hypothesis f_nonneg : forall ph, 0 <= f ph.

Lemma total_nonneg (phs : list phase) : 0 <= total f phs.
Proof.
  unfold total.
  induction phs as [|a phs IH]; cbn; [lia|]. pose proof (f_nonneg a). lia.
Qed.

Lemma total_lookup_le (phs : list phase) (i : nat) (ph : phase) :
  phs !! i = Some ph -> f ph <= total f phs.
Proof.
  revert i. induction phs as [|a phs IH]; intros [|i] Hi;
    try discriminate; change (total f (a :: phs)) with (f a + total f phs).
  - injection Hi as ->. pose proof (total_nonneg phs). lia.
  - pose proof (IH i Hi). pose proof (f_nonneg a). lia.
Qed.

Lemma total_pos_lookup (phs : list phase) :
  0 < total f phs -> exists i ph, phs !! i = Some ph /\ 0 < f ph.
Proof.
  induction phs as [|a phs IH]; [cbn; lia|].
  change (total f (a :: phs)) with (f a + total f phs). intros Hpos.
  destruct (Z_lt_le_dec 0 (f a)) as [Ha|Ha].
  - exists O, a. split; [reflexivity|assumption].
  - destruct IH as (i & ph & Hi & Hph); [lia|].
    exists (S i), ph. split; assumption.
Qed.
End Totals.

Lemma holds_nonneg (ph : phase) : 0 <= holds ph.
Proof. destruct ph; cbn; lia. Qed.

Lemma pending_nonneg (ph : phase) : 0 <= pending ph.
Proof. destruct ph; cbn -[Z.of_nat]; lia. Qed.

Lemma actions_left_nonneg (ph : phase) : 0 <= actions_left ph.
Proof. destruct ph; cbn -[Z.of_nat]; lia. Qed.

(** Two goroutines that hold the lock count for two. *)
Lemma holders_distinct (phs : list phase) (i j : nat) (a b : phase) :
  i <> j -> phs !! i = Some a -> phs !! j = Some b ->
  holds a + holds b <= total holds phs.
Proof.
  intros Hij Hi Hj.
  pose proof (total_insert holds phs i a (Idle 0) Hi) as E.
  assert (<[i:=Idle 0]> phs !! j = Some b) as Hj'
    by (rewrite list_lookup_insert_ne; assumption).
  pose proof (total_lookup_le holds holds_nonneg _ _ _ Hj') as Hle.
  cbn in E. lia.
Qed.

(** ** Goroutines: the phases follow the program *)

Lemma term_of_step (sz : int_size) (ph : phase) (ai ai' : AtomicInt)
    (p' : Prog unit) :
  step1 (term_of sz ph) ai = Next p' ai' ->
  exists ph', phase_step sz ph ai = Some (ph', ai') /\ p' = term_of sz ph'.
Proof.
  destruct ph as [[|k]|k|k v|k|k]; cbn.
  - discriminate.
  - destruct (sync.Lock (mutex ai)); cbn; [|discriminate..].
    intros [= <- <-]. exists (Locked k). split; reflexivity.
  - intros [= <- <-]. exists (Loaded k (val ai)). split; reflexivity.
  - intros [= <- <-]. exists (Stored k). split; reflexivity.
  - intros [= <- <-]. exists (Read k). split; reflexivity.
  - destruct (sync.Unlock (mutex ai)); cbn; [|discriminate..].
    intros [= <- <-]. exists (Idle k). split; reflexivity.
Qed.

Lemma phase_step_term (sz : int_size) (ph ph' : phase) (ai ai' : AtomicInt) :
  phase_step sz ph ai = Some (ph', ai') ->
  step1 (term_of sz ph) ai = Next (term_of sz ph') ai'.
Proof.
  destruct ph as [[|k]|k|k v|k|k]; cbn.
  - discriminate.
  - destruct (sync.Lock (mutex ai)); cbn; [|discriminate..].
    intros [= <- <-]. reflexivity.
  - intros [= <- <-]. reflexivity.
  - intros [= <- <-]. reflexivity.
  - intros [= <- <-]. reflexivity.
  - destruct (sync.Unlock (mutex ai)); cbn; [|discriminate..].
    intros [= <- <-]. reflexivity.
Qed.

Lemma term_of_returned (sz : int_size) (ph : phase) :
  term_of sz ph = Ret tt -> ph = Idle 0.
Proof. destruct ph as [[|k]|k|k v|k|k]; cbn; congruence. Qed.

Lemma actions_left_step (sz : int_size) (ph ph' : phase) (ai ai' : AtomicInt) :
  phase_step sz ph ai = Some (ph', ai') ->
  actions_left ph' = actions_left ph - 1.
Proof.
  destruct ph as [[|k]|k|k v|k|k]; cbn -[Z.of_nat]; try discriminate.
  - destruct (sync.Lock (mutex ai)); [|discriminate..].
    intros [= <- <-]. cbn -[Z.of_nat]. lia.
  - intros [= <- <-]. cbn -[Z.of_nat]. lia.
  - intros [= <- <-]. cbn -[Z.of_nat]. lia.
  - intros [= <- <-]. cbn -[Z.of_nat]. lia.
  - destruct (sync.Unlock (mutex ai)); [|discriminate..].
    intros [= <- <-]. cbn -[Z.of_nat]. lia.
Qed.

(** ** Goroutines: the invariant *)

Lemma pool_inv_spawn (sz : int_size) (N M : nat) :
  pool_inv sz (Z.of_nat N * Z.of_nat M) (NewAtomicInt 0)
    (replicate N (Idle M)).
Proof.
  split; cbn -[Z.of_nat].
  - reflexivity.
  - destruct sz; vm_compute; split; discriminate.
  - rewrite total_replicate. reflexivity.
  - rewrite total_replicate. cbn. lia.
  - intros i k v Hi. apply lookup_replicate_1 in Hi as [[=] _].
Qed.

Lemma pool_inv_step (sz : int_size) (T : Z) (ai ai' : AtomicInt)
    (phs : list phase) (i : nat) (ph ph' : phase) :
  pool_inv sz T ai phs ->
  phs !! i = Some ph ->
  phase_step sz ph ai = Some (ph', ai') ->
  pool_inv sz T ai' (<[i:=ph']> phs).
Proof.
  intros [Hrd Hint Hsum Hlock Hld] Hi Hstep.
  assert (forall j k v, j <> i -> <[i:=ph']> phs !! j = Some (Loaded k v) ->
                        phs !! j = Some (Loaded k v)) as Hother.
  { intros j k v Hj. rewrite list_lookup_insert_ne by congruence. tauto. }
  assert (forall k v, <[i:=ph']> phs !! i = Some (Loaded k v) ->
                      ph' = Loaded k v) as Hself.
  { intros k v Hl. apply list_lookup_insert_Some in Hl as [(_ & E & _)|[[] _]];
      [exact E|reflexivity]. }
  pose proof (total_insert pending phs i ph ph' Hi) as Ep.
  pose proof (total_insert holds phs i ph ph' Hi) as Eh.
  destruct ph as [[|k]|k|k v|k|k]; cbn -[Z.of_nat] in Hstep.
  - discriminate.
  - (* Lock *)
    unfold sync.Lock in Hstep.
    destruct (sync.writer (mutex ai)) eqn:Hw; [discriminate|].
    rewrite Hrd in Hstep. injection Hstep as <- <-.
    cbn -[Z.of_nat] in Ep, Eh.
    split; cbn -[Z.of_nat]; try assumption.
    + reflexivity.
    + rewrite Ep. rewrite <- Hsum. f_equal. lia.
    + lia.
    + intros j k' v Hj. destruct (decide (j = i)) as [->|Hne].
      * apply Hself in Hj. discriminate.
      * eapply Hld, Hother; eassumption.
  - (* the read of [ai.val++] *)
    injection Hstep as <- <-. cbn -[Z.of_nat] in Ep, Eh.
    split; try assumption.
    + rewrite Ep. rewrite <- Hsum. f_equal. lia.
    + lia.
    + intros j k' v Hj. destruct (decide (j = i)) as [->|Hne].
      * apply Hself in Hj. congruence.
      * eapply Hld, Hother; eassumption.
  - (* the write of [ai.val++] *)
    injection Hstep as <- <-. cbn -[Z.of_nat] in Ep, Eh.
    pose proof (Hld i k v Hi) as ->.
    split; cbn -[Z.of_nat]; try assumption.
    + apply wrap_is_int.
    + rewrite Ep. unfold int_add. rewrite wrap_add_l, <- Hsum. f_equal. lia.
    + lia.
    + intros j k' v Hj. destruct (decide (j = i)) as [->|Hne].
      * apply Hself in Hj. discriminate.
      * exfalso. apply Hother in Hj; [|assumption].
        pose proof (holders_distinct phs i j _ _ (not_eq_sym Hne) Hi Hj) as Hle.
        cbn in Hle. destruct (sync.writer (mutex ai)); lia.
  - (* the read of [return ai.val] *)
    injection Hstep as <- <-. cbn -[Z.of_nat] in Ep, Eh.
    split; try assumption.
    + rewrite Ep. rewrite <- Hsum. f_equal. lia.
    + lia.
    + intros j k' v Hj. destruct (decide (j = i)) as [->|Hne].
      * apply Hself in Hj. discriminate.
      * eapply Hld, Hother; eassumption.
  - (* the deferred Unlock *)
    unfold sync.Unlock in Hstep.
    destruct (sync.writer (mutex ai)) eqn:Hw; [|discriminate].
    injection Hstep as <- <-. cbn -[Z.of_nat] in Ep, Eh.
    split; cbn -[Z.of_nat]; try assumption.
    + rewrite Ep. rewrite <- Hsum. f_equal. lia.
    + lia.
    + intros j k' v Hj. destruct (decide (j = i)) as [->|Hne].
      * apply Hself in Hj. discriminate.
      * eapply Hld, Hother; eassumption.
Qed.

Lemma pool_ok_spawn (sz : int_size) (N M : nat) :
  pool_ok sz (Z.of_nat N * Z.of_nat M) (5 * (Z.of_nat N * Z.of_nat M))
    (spawn sz N M).
Proof.
  exists (replicate N (Idle M)). split; [|split].
  - cbn. rewrite fmap_replicate. reflexivity.
  - apply pool_inv_spawn.
  - rewrite total_replicate. cbn -[Z.of_nat]. lia.
Qed.

Lemma pool_ok_step (sz : int_size) (T L : Z) (c c' : pool) :
  pool_ok sz T L c -> pool_step c c' -> pool_ok sz T (L - 1) c'.
Proof.
  intros (phs & Hts & Hinv & Hleft) Hstep.
  destruct Hstep as [ai ai' ts i p p' Hi Hp]. simpl in Hts, Hinv. subst ts.
  apply list_lookup_fmap_Some_1 in Hi as (ph & -> & Hi).
  apply term_of_step in Hp as (ph' & Hph & ->).
  exists (<[i:=ph']> phs). split; [|split]; simpl.
  - symmetry. apply list_fmap_insert.
  - eapply pool_inv_step; eassumption.
  - rewrite (total_insert actions_left phs i ph ph' Hi).
    rewrite (actions_left_step _ _ _ _ _ Hph). lia.
Qed.

Lemma pool_ok_nsteps (sz : int_size) (N M n : nat) (c : pool) :
  nsteps pool_step n (spawn sz N M) c ->
  pool_ok sz (Z.of_nat N * Z.of_nat M)
    (5 * (Z.of_nat N * Z.of_nat M) - Z.of_nat n) c.
Proof.
  revert c. induction n as [|n IH]; intros c Hn.
  - inversion Hn; subst. rewrite Z.sub_0_r. apply pool_ok_spawn.
  - apply nsteps_inv_r in Hn as (c0 & Hn & Hstep).
    replace (5 * (Z.of_nat N * Z.of_nat M) - Z.of_nat (S n))
      with (5 * (Z.of_nat N * Z.of_nat M) - Z.of_nat n - 1) by lia.
    eapply pool_ok_step; [apply IH|]; eassumption.
Qed.

(** ** Goroutines: the end, and the way there *)

Lemma finished_totals (sz : int_size) (phs : list phase) :
  finished (term_of sz <$> phs) ->
  total pending phs = 0 /\ total holds phs = 0 /\ total actions_left phs = 0.
Proof.
  unfold finished, total.
  induction phs as [|ph phs IH]; simpl; [tauto|].
  intros Hall. apply Forall_cons in Hall as [Hph Hall].
  apply term_of_returned in Hph as ->.
  destruct (IH Hall) as (-> & -> & ->). repeat split.
Qed.

Lemma no_actions_left_finished (sz : int_size) (phs : list phase) :
  total actions_left phs = 0 -> finished (term_of sz <$> phs).
Proof.
  unfold finished. intros Hz.
  apply Forall_fmap, Forall_lookup. intros i ph Hi.
  pose proof (total_lookup_le actions_left actions_left_nonneg _ _ _ Hi) as Hle.
  pose proof (actions_left_nonneg ph).
  destruct ph as [[|k]|k|k v|k|k]; cbn -[Z.of_nat] in *; try lia.
  reflexivity.
Qed.

(** While an action is left some goroutine can take one: the holder of the
    lock if there is one, any goroutine that has calls left otherwise. *)
Lemma pool_inv_progress (sz : int_size) (T : Z) (ai : AtomicInt)
    (phs : list phase) :
  pool_inv sz T ai phs ->
  0 < total actions_left phs ->
  exists i ph ph' ai',
    phs !! i = Some ph /\ phase_step sz ph ai = Some (ph', ai').
Proof.
  intros [Hrd Hint Hsum Hlock Hld] Hleft.
  destruct (sync.writer (mutex ai)) eqn:Hw.
  - destruct (total_pos_lookup holds phs) as (i & ph & Hi & Hh); [lia|].
    exists i, ph.
    destruct ph as [k|k|k v|k|k]; cbn in Hh; [lia|..]; cbn;
      try (eexists _, _; split; [exact Hi|reflexivity]).
    unfold sync.Unlock. rewrite Hw.
    eexists _, _; split; [exact Hi|reflexivity].
  - destruct (total_pos_lookup actions_left phs Hleft) as (i & ph & Hi & Ha).
    pose proof (total_lookup_le holds holds_nonneg _ _ _ Hi) as Hle.
    exists i, ph.
    destruct ph as [[|k]|k|k v|k|k]; cbn -[Z.of_nat] in Ha, Hle; try lia.
    cbn. unfold sync.Lock. rewrite Hw, Hrd.
    eexists _, _; split; [exact Hi|reflexivity].
Qed.

(** When all goroutines have returned the struct is at rest and holds the
    truncated count of increments. *)
Lemma pool_inv_finished (sz : int_size) (T : Z) (ai : AtomicInt)
    (phs : list phase) :
  pool_inv sz T ai phs ->
  finished (term_of sz <$> phs) ->
  ai = at_rest (wrap sz T).
Proof.
  intros [Hrd Hint Hsum Hlock Hld] Hfin.
  apply finished_totals in Hfin as (Hp & Hh & _).
  rewrite Hp, Z.add_0_r, (wrap_id sz _ Hint) in Hsum.
  destruct ai as [v [w r]]; cbn in *. subst r v.
  destruct w; [lia|reflexivity].
Qed.

(** No goroutine is ever about to unlock a mutex that is not locked. *)
Lemma pool_inv_no_panic (sz : int_size) (T : Z) (ai : AtomicInt)
    (phs : list phase) (i : nat) (ph : phase) :
  pool_inv sz T ai phs ->
  phs !! i = Some ph ->
  step1 (term_of sz ph) ai <> Panics.
Proof.
  intros [Hrd Hint Hsum Hlock Hld] Hi.
  pose proof (total_lookup_le holds holds_nonneg _ _ _ Hi) as Hle.
  destruct ph as [[|k]|k|k v|k|k]; cbn; try discriminate.
  - unfold sync.Lock.
    destruct (sync.writer (mutex ai)), (sync.readers (mutex ai)); discriminate.
  - unfold sync.Unlock.
    destruct (sync.writer (mutex ai)); cbn in *; [discriminate|lia].
Qed.

(** From any pool that satisfies the invariant the goroutines can all be
    run to their return, and it takes the [L] actions that are left. *)
Lemma pool_ok_completes (sz : int_size) (T : Z) (k : nat) (c : pool) :
  pool_ok sz T (Z.of_nat k) c ->
  exists c', nsteps pool_step k c c' /\ finished c'.2.
Proof.
  revert c. induction k as [|k IH]; intros [ai ts] Hok.
  - exists (ai, ts). split; [constructor|].
    destruct Hok as (phs & -> & _ & Hleft). simpl.
    apply no_actions_left_finished, Hleft.
  - assert (exists c1, pool_step (ai, ts) c1) as [c1 Hstep].
    { destruct Hok as (phs & Hts & Hinv & Hleft). simpl in Hts, Hinv. subst ts.
      destruct (pool_inv_progress sz T ai phs Hinv)
        as (i & ph & ph' & ai' & Hi & Hs); [lia|].
      exists (ai', <[i:=term_of sz ph']> (term_of sz <$> phs)).
      apply (pool_step_at ai ai' _ i (term_of sz ph)).
      - apply list_lookup_fmap_Some_2, Hi.
      - apply phase_step_term, Hs. }
    pose proof (pool_ok_step sz T _ _ _ Hok Hstep) as Hok1.
    replace (Z.of_nat (S k) - 1) with (Z.of_nat k) in Hok1 by lia.
    destruct (IH c1 Hok1) as (c' & Hrun & Hfin).
    exists c'. split; [|exact Hfin].
    eapply nsteps_l; eassumption.
Qed.

(** C9. [N] goroutines share a struct made by [NewAtomicInt 0] and each
    calls [IncrementAndGet] [M] times, their atomic actions interleaved in
    any order the mutex allows. After any [n] actions of any such schedule:
    no goroutine is about to unlock an unlocked mutex; [n] is at most
    [5 * N * M], and the schedule can be continued by the actions that are
    left until all goroutines have returned (no deadlock); and once all
    goroutines have returned, a [Get] returns the count [N * M], as the Go
    [int] it is: the integer [N * M] itself whenever that does not exceed
    [MaxInt]. *)
Theorem no_lost_updates (sz : int_size) (N M n : nat) (ai : AtomicInt)
    (ts : list (Prog unit)) :
  nsteps pool_step n (spawn sz N M) (ai, ts) ->
  (forall i t, ts !! i = Some t -> step1 t ai <> Panics)
  /\ (n <= 5 * N * M)%nat
  /\ (exists ai' ts',
        nsteps pool_step (5 * N * M - n) (ai, ts) (ai', ts') /\ finished ts')
  /\ (finished ts ->
      run Get ai = Done (int_mul sz (Z.of_nat N) (Z.of_nat M)) ai
      /\ (Z.of_nat N * Z.of_nat M <= MaxInt sz ->
          run Get ai = Done (Z.of_nat N * Z.of_nat M) ai)).
Proof.
  intros Hn. pose proof (pool_ok_nsteps sz N M n _ Hn) as Hok.
  destruct Hok as (phs & Hts & Hinv & Hleft).
  simpl in Hts, Hinv.
  pose proof (total_nonneg actions_left actions_left_nonneg phs) as Hnn.
  split; [|split; [lia|split]].
  - intros i t Hi. subst ts.
    apply list_lookup_fmap_Some_1 in Hi as (ph & -> & Hi).
    eapply pool_inv_no_panic; eassumption.
  - destruct (pool_ok_completes sz (Z.of_nat N * Z.of_nat M)
                (5 * N * M - n) (ai, ts)) as ([ai' ts'] & Hrun & Hfin).
    { replace (Z.of_nat (5 * N * M - n))
        with (5 * (Z.of_nat N * Z.of_nat M) - Z.of_nat n) by lia.
      apply pool_ok_nsteps, Hn. }
    exists ai', ts'. split; assumption.
  - intros Hfin. subst ts.
    pose proof (pool_inv_finished sz _ ai phs Hinv Hfin) as ->.
    split; [reflexivity|].
    intros Hmax. unfold int_mul.
    rewrite wrap_id; [reflexivity|].
    pose proof (half_modulus_pos sz). unfold is_int, MinInt, MaxInt in *. lia.
Qed.

Lemma no_lost_updates_witness :
  nsteps pool_step 10 (spawn Int64 2 1) (at_rest 2, [Ret tt; Ret tt])
  /\ finished [Ret tt; Ret tt]
  /\ run Get (at_rest 2) = Done 2 (at_rest 2).
Proof.
  assert (nsteps pool_step 10 (spawn Int64 2 1) (at_rest 2, [Ret tt; Ret tt]))
    as Hsched.
  { do 5 (eapply nsteps_l;
          [eapply (pool_step_at _ _ _ 1%nat); reflexivity|]).
    do 5 (eapply nsteps_l;
          [eapply (pool_step_at _ _ _ 0%nat); reflexivity|]).
    apply nsteps_O. }
  assert (finished [Ret tt; Ret tt]) as Hfin
    by (repeat constructor).
  split; [exact Hsched|]. split; [exact Hfin|].
  destruct (no_lost_updates Int64 2 1 10 _ _ Hsched) as (_ & _ & _ & Hend).
  destruct (Hend Hfin) as (_ & Hexact).
  apply Hexact. vm_compute. discriminate.
Defined.

(** * More properties of the method set *)

(** ** One caller *)

(** X1. [Set w] on a struct holding any [v] returns and leaves the struct
    at rest; the [Get] called next returns [w], and of two [Set]s in a row
    only the second shows. *)
Theorem Set_then_Get (v w w' : Z) :
  exists ai1 ai2,
    run (Set_ w) (at_rest v) = Done tt ai1
    /\ run Get ai1 = Done w ai1
    /\ run (Set_ w') ai1 = Done tt ai2
    /\ run (Set_ w') (at_rest v) = Done tt ai2
    /\ run Get ai2 = Done w' ai2.
Proof. exists (at_rest w), (at_rest w'). repeat split. Qed.


Lemma run_call_at_rest (sz : int_size) (o : Op) (v : Z) :
  run (call sz o) (at_rest v)
  = Done (table_returns sz o v) (at_rest (table_effect sz o v)).
Proof.
  destruct o as [ |w|w|d|d| | | | |e u]; try reflexivity.
  cbn. destruct (v =? e); reflexivity.
Qed.

Lemma run_script (sz : int_size) (ops : list Op) (acc : list result) (v : Z) :
  run (script sz ops acc) (at_rest v)
  = Done (acc ++ results_after sz ops v) (at_rest (value_after sz ops v)).
Proof.
  revert acc v. induction ops as [|o ops IH]; intros acc v.
  - simpl. rewrite app_nil_r. reflexivity.
  - change (script sz (o :: ops) acc)
      with (call sz o ≫= fun r => script sz ops (acc ++ [r])).
    rewrite run_bind, run_call_at_rest, IH. simpl.
    rewrite <- app_assoc. reflexivity.
Qed.

Lemma table_effect_is_int (sz : int_size) (o : Op) (v : Z) :
  is_int sz v -> Op_is_int sz o -> is_int sz (table_effect sz o v).
Proof.
  intros Hv Ho.
  destruct o as [ |w|w|d|d| | | | |e u]; simpl in *;
    try assumption; try apply wrap_is_int.
  destruct (v =? e); tauto.
Qed.

Lemma table_returns_is_int (sz : int_size) (o : Op) (v : Z) :
  is_int sz v -> result_is_int sz (table_returns sz o v).
Proof.
  intros Hv.
  destruct o as [ |w|w|d|d| | | | |e u]; simpl;
    try assumption; try apply wrap_is_int; exact I.
Qed.

(** X3. The struct always holds an [int]: any list of calls with [int]
    arguments, made in order by one caller on a struct at rest that holds
    an [int], returns one result per call, every integer result an [int],
    and leaves the struct at rest holding an [int]. *)
Theorem calls_keep_int (sz : int_size) (ops : list Op) (v : Z) :
  is_int sz v ->
  Forall (Op_is_int sz) ops ->
  exists rs v',
    run (script sz ops []) (at_rest v) = Done rs (at_rest v')
    /\ is_int sz v'
    /\ Forall (result_is_int sz) rs
    /\ length rs = length ops.
Proof.
  intros Hv Hops.
  exists (results_after sz ops v), (value_after sz ops v).
  split; [apply run_script|].
  revert v Hv. induction Hops as [|o ops Ho Hops IH]; intros v Hv; simpl.
  - split; [assumption|]. split; [constructor|reflexivity].
  - destruct (IH _ (table_effect_is_int sz o v Hv Ho)) as (Hint & Hrs & Hlen).
    split; [assumption|]. split; [|congruence].
    constructor; [apply table_returns_is_int, Hv|assumption].
Qed.

Lemma calls_keep_int_witness :
  exists rs v',
    run (script Int32 [OpAddAndGet 2147483647; OpGetAndDecrement;
                       OpCompareAndSet 7 0; OpGet] [])
        (at_rest 2147483647)
    = Done rs (at_rest v')
    /\ is_int Int32 v'
    /\ Forall (result_is_int Int32) rs
    /\ length rs = 4%nat.
Proof.
  apply (calls_keep_int Int32
           [OpAddAndGet 2147483647; OpGetAndDecrement;
            OpCompareAndSet 7 0; OpGet] 2147483647).
  - vm_compute. split; discriminate.
  - repeat constructor; vm_compute; discriminate.
Defined.

Lemma int_add_assoc (sz : int_size) (x y z : Z) :
  int_add sz (int_add sz x y) z = int_add sz x (int_add sz y z).
Proof.
  unfold int_add. rewrite wrap_add_l.
  rewrite (Z.add_comm x (wrap sz (y + z))), wrap_add_l.
  f_equal. lia.
Qed.

(** X4. Additions accumulate, also across an overflow in between:
    [AddAndGet a] and then [AddAndGet b] return last, and leave, what the
    single call [AddAndGet (a + b)] (Go's sum) returns and leaves; two
    [GetAndAdd]s leave what the single [GetAndAdd] of the sum leaves. *)
Theorem AddAndGet_accumulates (sz : int_size) (v a b : Z) :
  (exists r1 ai1,
     run (AddAndGet sz a) (at_rest v) = Done r1 ai1
     /\ run (AddAndGet sz b) ai1
        = run (AddAndGet sz (int_add sz a b)) (at_rest v))
  /\ (exists r1 ai1 r2 r ai2,
        run (GetAndAdd sz a) (at_rest v) = Done r1 ai1
        /\ run (GetAndAdd sz b) ai1 = Done r2 ai2
        /\ run (GetAndAdd sz (int_add sz a b)) (at_rest v) = Done r ai2).
Proof.
  split.
  - exists (int_add sz v a), (at_rest (int_add sz v a)).
    split; [reflexivity|]. cbn. rewrite int_add_assoc. reflexivity.
  - exists v, (at_rest (int_add sz v a)), (int_add sz v a), v,
      (at_rest (int_add sz v (int_add sz a b))).
    repeat split. cbn. rewrite int_add_assoc. reflexivity.
Qed.

(** X5. An addition is undone by adding Go's [-d]: on a struct holding the
    [int] [v], [AddAndGet d] and then [AddAndGet (-d)] return [v] last and
    leave [v], whatever [d] is and also when the first sum overflowed. *)
Theorem AddAndGet_undone (sz : int_size) (v d : Z) :
  is_int sz v ->
  exists r1 ai1,
    run (AddAndGet sz d) (at_rest v) = Done r1 ai1
    /\ run (AddAndGet sz (int_neg sz d)) ai1 = Done v (at_rest v).
Proof.
  intros Hv. exists (int_add sz v d), (at_rest (int_add sz v d)).
  split; [reflexivity|].
  assert (int_add sz (int_add sz v d) (int_neg sz d) = v) as E.
  { unfold int_add, int_neg. rewrite wrap_add_l.
    rewrite (Z.add_comm (v + d)), wrap_add_l.
    replace (- d + (v + d)) with v by lia. apply wrap_id, Hv. }
  cbn. rewrite E. reflexivity.
Qed.

Lemma AddAndGet_undone_witness :
  exists r1 ai1,
    run (AddAndGet Int64 (-9223372036854775808)) (at_rest (-5)) = Done r1 ai1
    /\ run (AddAndGet Int64 (int_neg Int64 (-9223372036854775808))) ai1
       = Done (-5) (at_rest (-5)).
Proof.
  apply (AddAndGet_undone Int64 (-5) (-9223372036854775808)).
  vm_compute. split; discriminate.
Defined.

(** ** Many goroutines, any calls: sums and histories *)

Section Sums.
Context {A : Type}.
Variable f : A -> Z.

Lemma sum_over_insert (l : list A) (i : nat) (a a' : A) :
  l !! i = Some a ->
  sum_over f (<[i:=a']> l) = sum_over f l - f a + f a'.
Proof.
  unfold sum_over. revert i.
  induction l as [|b l IH]; intros [|i] Hi; simpl in *; try discriminate.
  - injection Hi as ->. lia.
  - rewrite (IH i Hi). lia.
Qed.

Lemma sum_over_ext (g : A -> Z) (l : list A) :
  (forall i a, l !! i = Some a -> f a = g a) ->
  sum_over f l = sum_over g l.
Proof.
  unfold sum_over. induction l as [|b l IH]; intros Hfg; simpl; [reflexivity|].
  rewrite (Hfg O b eq_refl), IH; [reflexivity|].
  intros i a Hi. apply (Hfg (S i) a Hi).
Qed.

Hypothesis f_nonneg : forall a, 0 <= f a.

Lemma sum_over_nonneg (l : list A) : 0 <= sum_over f l.
Proof.
  unfold sum_over.
  induction l as [|b l IH]; simpl; [lia|]. pose proof (f_nonneg b). lia.
Qed.

Lemma sum_over_lookup_le (l : list A) (i : nat) (a : A) :
  l !! i = Some a -> f a <= sum_over f l.
Proof.
  revert i. induction l as [|b l IH]; intros [|i] Hi;
    try discriminate; change (sum_over f (b :: l)) with (f b + sum_over f l).
  - injection Hi as ->. pose proof (sum_over_nonneg l). lia.
  - pose proof (IH i Hi). pose proof (f_nonneg b). lia.
Qed.

Lemma sum_over_pos_lookup (l : list A) :
  0 < sum_over f l -> exists i a, l !! i = Some a /\ 0 < f a.
Proof.
  induction l as [|b l IH]; [cbn; lia|].
  change (sum_over f (b :: l)) with (f b + sum_over f l). intros Hpos.
  destruct (Z_lt_le_dec 0 (f b)) as [Hb|Hb].
  - exists O, b. split; [reflexivity|assumption].
  - destruct IH as (i & a & Hi & Ha); [lia|].
    exists (S i), a. split; assumption.
Qed.

Lemma sum_over_zero_lookup (l : list A) (i : nat) (a : A) :
  sum_over f l = 0 -> l !! i = Some a -> f a = 0.
Proof.
  intros Hz Hi. pose proof (sum_over_lookup_le l i a Hi).
  pose proof (f_nonneg a). lia.
Qed.
End Sums.

Lemma isW_nonneg (a : place) : 0 <= isW a.
Proof. destruct a; cbn; lia. Qed.

Lemma isR_nonneg (a : place) : 0 <= isR a.
Proof. destruct a; cbn; lia. Qed.

(** Two goroutines inside writing methods count for two. *)
Lemma writers_distinct (ps : list place) (i j : nat) (a b : place) :
  i <> j -> ps !! i = Some a -> ps !! j = Some b ->
  isW a + isW b <= sum_over isW ps.
Proof.
  intros Hij Hi Hj.
  pose proof (sum_over_insert isW ps i a (Out [] []) Hi) as E.
  assert (<[i:=Out [] []]> ps !! j = Some b) as Hj'
    by (rewrite list_lookup_insert_ne; assumption).
  pose proof (sum_over_lookup_le isW isW_nonneg _ _ _ Hj') as Hle.
  cbn in E. lia.
Qed.

Lemma mine_app {X : Type} (i : nat) (l l' : list (nat * X)) :
  mine i (l ++ l') = mine i l ++ mine i l'.
Proof.
  induction l as [|[j x] l IH]; simpl; [reflexivity|].
  destruct (decide (j = i)); simpl; rewrite IH; reflexivity.
Qed.

Lemma value_after_app (sz : int_size) (ops ops' : list Op) (v : Z) :
  value_after sz (ops ++ ops') v
  = value_after sz ops' (value_after sz ops v).
Proof.
  revert v. induction ops as [|o ops IH]; intros v; simpl; [reflexivity|].
  apply IH.
Qed.

Lemma results_after_app (sz : int_size) (ops ops' : list Op) (v : Z) :
  results_after sz (ops ++ ops') v
  = results_after sz ops v ++ results_after sz ops' (value_after sz ops v).
Proof.
  revert v. induction ops as [|o ops IH]; intros v; simpl; [reflexivity|].
  rewrite IH. reflexivity.
Qed.

Lemma results_after_length (sz : int_size) (ops : list Op) (v : Z) :
  length (results_after sz ops v) = length ops.
Proof.
  revert v. induction ops as [|o ops IH]; intros v; simpl; [reflexivity|].
  rewrite IH. reflexivity.
Qed.

(** The history [h] with one more call, [o] by goroutine [i]. *)
Lemma history_snoc (sz : int_size) (h : list (nat * Op)) (i j : nat) (o : Op)
    (v0 : Z) :
  let h' := h ++ [(i, o)] in
  value_after sz h'.*2 v0 = table_effect sz o (value_after sz h.*2 v0)
  /\ mine j h' = mine j h ++ (if decide (i = j) then [o] else [])
  /\ mine j (zip h'.*1 (results_after sz h'.*2 v0))
     = mine j (zip h.*1 (results_after sz h.*2 v0))
       ++ (if decide (i = j)
           then [table_returns sz o (value_after sz h.*2 v0)] else []).
Proof.
  simpl. rewrite !fmap_app, value_after_app, results_after_app. simpl.
  split; [reflexivity|]. split.
  - rewrite mine_app. simpl. destruct (decide (i = j)); reflexivity.
  - rewrite zip_with_app
      by (rewrite results_after_length, !length_fmap; reflexivity).
    rewrite mine_app. simpl. destruct (decide (i = j)); reflexivity.
Qed.

(** ** Many goroutines, any calls: the invariant *)

(** Every method takes its lock first; what follows reads and writes [val]
    as the table says and releases the lock, in four actions at most. *)
Lemma script_takes_lock (sz : int_size) (o : Op) (todo : list Op)
    (got : list result) :
  exists B : Prog (list result),
    script sz (o :: todo) got = (if takes_read_lock o then RLock B else Lock B)
    /\ forall v,
        (if takes_read_lock o
         then rcrit B v (script sz todo (got ++ [table_returns sz o v]))
              /\ table_effect sz o v = v
         else wcrit B v (table_effect sz o v)
                (script sz todo (got ++ [table_returns sz o v])))
        /\ 1 <= crit_left B v <= 4.
Proof.
  destruct o as [ |w|w|d|d| | | | |e u]; eexists;
    (split; [reflexivity|]); intros v; cbn;
    try (split; [split; reflexivity|lia]).
  destruct (v =? e); cbn; (split; [split; reflexivity|lia]).
Qed.

Lemma place_is_out (b : place) :
  isW b = 0 -> isR b = 0 -> exists todo got, b = Out todo got.
Proof. destruct b; cbn; try lia. intros _ _. eauto. Qed.

Ltac at_insert Hj :=
  apply list_lookup_insert_Some in Hj as [(<- & <- & _)|(? & Hj)].

(** A goroutine inside a writing method takes its next action. *)
Lemma team_inv_step_writer (sz : int_size) (v0 : Z) (opss : list (list Op))
    (ai ai' : AtomicInt) (ps : list place) (h : list (nat * Op)) (i : nat)
    (t p' : Prog (list result)) (todo : list Op) (got : list result) :
  team_inv sz v0 opss ai ps h ->
  ps !! i = Some (InW t todo got) ->
  step1 t ai = Next p' ai' ->
  exists a',
    p' = place_term sz a'
    /\ team_inv sz v0 opss ai' (<[i:=a']> ps) h
    /\ sum_over (place_left (val ai')) (<[i:=a']> ps) + 1
       <= sum_over (place_left (val ai)) ps.
Proof.
  intros [Hlen Hids Hhist Hok Hw Hr Hwr Hval] Hi Hstep.
  destruct (Hhist _ _ Hi) as [Hops Hgot]. pose proof (Hok _ _ Hi) as Hoki.
  pose proof (sum_over_lookup_le isW isW_nonneg _ _ _ Hi) as Hle.
  assert (sync.writer (mutex ai) = true) as Hwt
    by (destruct (sync.writer (mutex ai)); [reflexivity|cbn in Hle; lia]).
  pose proof (Hwr Hwt) as Hrd. rewrite Hrd in Hr. rewrite Hwt in Hw.
  assert (forall j b, j <> i -> ps !! j = Some b ->
                      exists todo' got', b = Out todo' got') as Hout.
  { intros j b Hne Hj. apply place_is_out.
    - pose proof (writers_distinct ps i j _ _ (not_eq_sym Hne) Hi Hj) as Hd.
      pose proof (isW_nonneg b). cbn in Hd. lia.
    - apply (sum_over_zero_lookup isR isR_nonneg ps j b); assumption. }
  destruct t as [rs|k|k|k|k|f|z k]; cbn in Hoki; try contradiction;
    cbn in Hstep.
  - (* Unlock *)
    destruct Hoki as [HvL ->].
    unfold sync.Unlock in Hstep. rewrite Hwt in Hstep. cbn in Hstep.
    injection Hstep as <- <-. exists (Out todo got).
    split; [reflexivity|]. split.
    + split; cbn; try assumption.
      * rewrite length_insert. assumption.
      * intros j b Hj. at_insert Hj; [cbn; split; assumption|].
        apply Hhist; assumption.
      * intros j b Hj. at_insert Hj; [exact I|]. apply (Hok j); assumption.
      * rewrite (sum_over_insert isW ps i _ _ Hi), Hw. cbn. lia.
      * rewrite (sum_over_insert isR ps i _ _ Hi), Hr, Hrd. cbn. lia.
      * discriminate.
      * intros _. assumption.
    + rewrite (sum_over_insert _ ps i _ _ Hi). cbn -[Z.of_nat]. lia.
  - (* a read of [val] *)
    injection Hstep as <- <-. exists (InW (f (val ai)) todo got).
    split; [reflexivity|]. split.
    + split; cbn; try assumption.
      * rewrite length_insert. assumption.
      * intros j b Hj. at_insert Hj; [cbn; split; assumption|].
        apply Hhist; assumption.
      * intros j b Hj. at_insert Hj; [exact Hoki|]. apply (Hok j); assumption.
      * rewrite (sum_over_insert isW ps i _ _ Hi), Hw, Hwt. cbn. lia.
      * rewrite (sum_over_insert isR ps i _ _ Hi), Hr, Hrd. cbn. lia.
    + rewrite (sum_over_insert _ ps i _ _ Hi). cbn -[Z.of_nat]. lia.
  - (* a write of [val] *)
    injection Hstep as <- <-. exists (InW k todo got).
    split; [reflexivity|]. split.
    + split; cbn; try assumption.
      * rewrite length_insert. assumption.
      * intros j b Hj. at_insert Hj; [cbn; split; assumption|].
        apply Hhist; assumption.
      * intros j b Hj. at_insert Hj; [exact Hoki|].
        destruct (Hout j b) as (todo' & got' & ->); [congruence|assumption|].
        exact I.
      * rewrite (sum_over_insert isW ps i _ _ Hi), Hw, Hwt. cbn. lia.
      * rewrite (sum_over_insert isR ps i _ _ Hi), Hr, Hrd. cbn. lia.
      * rewrite Hwt. discriminate.
    + rewrite (sum_over_insert _ ps i _ _ Hi). cbn -[Z.of_nat].
      rewrite (sum_over_ext (place_left z) (place_left (val ai)) ps); [lia|].
      intros j b Hj. destruct (decide (j = i)) as [->|Hne].
      * rewrite Hi in Hj. injection Hj as <-. reflexivity.
      * destruct (Hout j b) as (todo' & got' & ->); [assumption..|].
        reflexivity.
Qed.

(** A goroutine inside [Get] takes its next action. *)
Lemma team_inv_step_reader (sz : int_size) (v0 : Z) (opss : list (list Op))
    (ai ai' : AtomicInt) (ps : list place) (h : list (nat * Op)) (i : nat)
    (t p' : Prog (list result)) (todo : list Op) (got : list result) :
  team_inv sz v0 opss ai ps h ->
  ps !! i = Some (InR t todo got) ->
  step1 t ai = Next p' ai' ->
  exists a',
    p' = place_term sz a'
    /\ team_inv sz v0 opss ai' (<[i:=a']> ps) h
    /\ sum_over (place_left (val ai')) (<[i:=a']> ps) + 1
       <= sum_over (place_left (val ai)) ps.
Proof.
  intros [Hlen Hids Hhist Hok Hw Hr Hwr Hval] Hi Hstep.
  destruct (Hhist _ _ Hi) as [Hops Hgot]. pose proof (Hok _ _ Hi) as Hoki.
  pose proof (sum_over_lookup_le isR isR_nonneg _ _ _ Hi) as Hle.
  cbn in Hle.
  assert (sync.writer (mutex ai) = false) as Hwt.
  { destruct (sync.writer (mutex ai)); [|reflexivity].
    rewrite (Hwr eq_refl) in Hr. cbn in Hr. lia. }
  rewrite Hwt in Hw.
  destruct t as [rs|k|k|k|k|f|z k]; cbn in Hoki; try contradiction;
    cbn in Hstep.
  - (* RUnlock *)
    subst k. unfold sync.RUnlock in Hstep.
    destruct (sync.readers (mutex ai)) as [|n] eqn:Hrd; [cbn in Hr; lia|].
    cbn in Hstep. injection Hstep as <- <-. exists (Out todo got).
    split; [reflexivity|]. split.
    + split; cbn; try assumption.
      * rewrite length_insert. assumption.
      * intros j b Hj. at_insert Hj; [cbn; split; assumption|].
        apply Hhist; assumption.
      * intros j b Hj. at_insert Hj; [exact I|]. apply (Hok j); assumption.
      * rewrite (sum_over_insert isW ps i _ _ Hi), Hw, Hwt. cbn. lia.
      * rewrite (sum_over_insert isR ps i _ _ Hi), Hr. cbn -[Z.of_nat]. lia.
      * rewrite Hwt. discriminate.
    + rewrite (sum_over_insert _ ps i _ _ Hi). cbn -[Z.of_nat]. lia.
  - (* the read of [val] *)
    injection Hstep as <- <-. exists (InR (f (val ai)) todo got).
    split; [reflexivity|]. split.
    + split; cbn; try assumption.
      * rewrite length_insert. assumption.
      * intros j b Hj. at_insert Hj; [cbn; split; assumption|].
        apply Hhist; assumption.
      * intros j b Hj. at_insert Hj; [exact Hoki|]. apply (Hok j); assumption.
      * rewrite (sum_over_insert isW ps i _ _ Hi), Hw, Hwt. cbn. lia.
      * rewrite (sum_over_insert isR ps i _ _ Hi), Hr. cbn. lia.
    + rewrite (sum_over_insert _ ps i _ _ Hi). cbn -[Z.of_nat]. lia.
Qed.

Lemma history_snoc_self (sz : int_size) (h : list (nat * Op)) (i : nat)
    (o : Op) (v0 : Z) :
  mine i (h ++ [(i, o)]) = mine i h ++ [o]
  /\ mine i (zip (h ++ [(i, o)]).*1 (results_after sz (h ++ [(i, o)]).*2 v0))
     = mine i (zip h.*1 (results_after sz h.*2 v0))
       ++ [table_returns sz o (value_after sz h.*2 v0)].
Proof.
  destruct (history_snoc sz h i i o v0) as (_ & E1 & E2).
  destruct (decide (i = i)); [|congruence]. split; assumption.
Qed.

Lemma history_snoc_other (sz : int_size) (h : list (nat * Op)) (i j : nat)
    (o : Op) (v0 : Z) :
  i <> j ->
  mine j (h ++ [(i, o)]) = mine j h
  /\ mine j (zip (h ++ [(i, o)]).*1 (results_after sz (h ++ [(i, o)]).*2 v0))
     = mine j (zip h.*1 (results_after sz h.*2 v0)).
Proof.
  intros Hne. destruct (history_snoc sz h i j o v0) as (_ & E1 & E2).
  destruct (decide (i = j)); [congruence|].
  rewrite app_nil_r in E1, E2. split; assumption.
Qed.

Lemma history_snoc_value (sz : int_size) (h : list (nat * Op)) (i : nat)
    (o : Op) (v0 : Z) :
  value_after sz (h ++ [(i, o)]).*2 v0
  = table_effect sz o (value_after sz h.*2 v0).
Proof. apply (history_snoc sz h i i o v0). Qed.

(** A goroutine between two calls takes the lock of its next call: the
    call enters the history. *)
Lemma team_inv_step_lock (sz : int_size) (v0 : Z) (opss : list (list Op))
    (ai ai' : AtomicInt) (ps : list place) (h : list (nat * Op)) (i : nat)
    (o : Op) (p' : Prog (list result)) (todo : list Op) (got : list result) :
  team_inv sz v0 opss ai ps h ->
  ps !! i = Some (Out (o :: todo) got) ->
  step1 (script sz (o :: todo) got) ai = Next p' ai' ->
  exists a',
    p' = place_term sz a'
    /\ team_inv sz v0 opss ai' (<[i:=a']> ps) (h ++ [(i, o)])
    /\ sum_over (place_left (val ai')) (<[i:=a']> ps) + 1
       <= sum_over (place_left (val ai)) ps.
Proof.
  intros [Hlen Hids Hhist Hok Hw Hr Hwr Hval] Hi Hstep.
  destruct (Hhist _ _ Hi) as [Hops Hgot]. cbn in Hops, Hgot.
  assert (Forall (fun e => (e.1 < length opss)%nat) (h ++ [(i, o)])) as Hids'.
  { apply Forall_app. split; [assumption|]. apply Forall_singleton. cbn.
    rewrite <- Hlen. eapply lookup_lt_Some, Hi. }
  destruct (script_takes_lock sz o todo got) as (B & EB & HB).
  rewrite EB in Hstep.
  assert (sync.writer (mutex ai) = false) as Hwt.
  { destruct (takes_read_lock o); cbn in Hstep;
      [unfold sync.RLock in Hstep|unfold sync.Lock in Hstep];
      destruct (sync.writer (mutex ai)); (reflexivity || discriminate). }
  pose proof (Hval Hwt) as HvL. rewrite Hwt in Hw.
  destruct (HB (val ai)) as [Hcrit Hleft].
  assert (opss !! i = Some (mine i (h ++ [(i, o)]) ++ todo)
          /\ got ++ [table_returns sz o (val ai)]
             = mine i (zip (h ++ [(i, o)]).*1
                         (results_after sz (h ++ [(i, o)]).*2 v0))) as Hself.
  { destruct (history_snoc_self sz h i o v0) as [-> ->].
    rewrite <- app_assoc, <- Hgot, <- HvL. split; [exact Hops|reflexivity]. }
  assert (forall j b, i <> j -> ps !! j = Some b ->
            opss !! j = Some (mine j (h ++ [(i, o)]) ++ todo_of b)
            /\ got_of b
               = mine j (zip (h ++ [(i, o)]).*1
                           (results_after sz (h ++ [(i, o)]).*2 v0)))
    as Hothers.
  { intros j b Hne Hj.
    destruct (history_snoc_other sz h i j o v0) as [-> ->]; [assumption|].
    apply Hhist; assumption. }
  destruct (takes_read_lock o); cbn in Hstep.
  - (* the read lock *)
    destruct Hcrit as [Hcrit Hsame].
    unfold sync.RLock in Hstep. rewrite Hwt in Hstep. cbn in Hstep.
    injection Hstep as <- <-.
    exists (InR B todo (got ++ [table_returns sz o (val ai)])).
    split; [reflexivity|]. split.
    + split; cbn; try assumption.
      * rewrite length_insert. assumption.
      * intros j b Hj. at_insert Hj; [exact Hself|].
        apply Hothers; assumption.
      * rewrite history_snoc_value.
        replace (table_effect sz o (value_after sz h.*2 v0))
          with (value_after sz h.*2 v0)
          by (rewrite <- HvL; symmetry; exact Hsame).
        intros j b Hj. at_insert Hj; [exact Hcrit|].
        apply (Hok j); assumption.
      * rewrite (sum_over_insert isW ps i _ _ Hi), Hw. cbn. lia.
      * rewrite (sum_over_insert isR ps i _ _ Hi), Hr. cbn -[Z.of_nat]. lia.
      * discriminate.
      * intros _. rewrite history_snoc_value, <- HvL, Hsame. reflexivity.
    + rewrite (sum_over_insert _ ps i _ _ Hi). cbn -[Z.of_nat length].
      rewrite length_cons. lia.
  - (* the write lock *)
    unfold sync.Lock in Hstep. rewrite Hwt in Hstep.
    destruct (sync.readers (mutex ai)) eqn:Hrd; [|discriminate].
    cbn in Hstep. injection Hstep as <- <-.
    exists (InW B todo (got ++ [table_returns sz o (val ai)])).
    split; [reflexivity|]. split.
    + split; cbn; try assumption.
      * rewrite length_insert. assumption.
      * intros j b Hj. at_insert Hj; [exact Hself|].
        apply Hothers; assumption.
      * rewrite history_snoc_value, <- HvL.
        intros j b Hj. at_insert Hj; [exact Hcrit|].
        destruct (place_is_out b) as (todo' & got' & ->); [..|exact I].
        -- eapply (sum_over_zero_lookup isW isW_nonneg); eassumption.
        -- eapply (sum_over_zero_lookup isR isR_nonneg); [|eassumption].
           rewrite Hr. reflexivity.
      * rewrite (sum_over_insert isW ps i _ _ Hi), Hw. cbn. lia.
      * rewrite (sum_over_insert isR ps i _ _ Hi), Hr. cbn. lia.
      * reflexivity.
      * discriminate.
    + rewrite (sum_over_insert _ ps i _ _ Hi). cbn -[Z.of_nat length].
      rewrite length_cons. lia.
Qed.

Lemma crit_left_nonneg {A : Type} (t : Prog A) (v : Z) : 0 <= crit_left t v.
Proof.
  revert v. induction t as [a|k IH|k IH|k IH|k IH|k IH|z k IH]; intros v;
    simpl; try lia.
  - pose proof (IH v v). lia.
  - pose proof (IH z). lia.
Qed.

Lemma place_left_nonneg (v : Z) (a : place) : 0 <= place_left v a.
Proof.
  destruct a as [todo got|t todo got|t todo got]; cbn -[Z.of_nat];
    try pose proof (crit_left_nonneg t v); lia.
Qed.

Lemma sum_over_cons {A : Type} (f : A -> Z) (a : A) (l : list A) :
  sum_over f (a :: l) = f a + sum_over f l.
Proof. reflexivity. Qed.

Lemma sum_over_all_out (f : place -> Z) (opss : list (list Op)) :
  (forall ops, f (Out ops []) = 0) ->
  sum_over f ((fun ops => Out ops []) <$> opss) = 0.
Proof.
  intros Hf. induction opss as [|ops opss IH]; [reflexivity|].
  rewrite fmap_cons, sum_over_cons, Hf, IH. reflexivity.
Qed.

Lemma place_left_start (v : Z) (opss : list (list Op)) :
  sum_over (place_left v) ((fun ops => Out ops []) <$> opss)
  = 5 * Z.of_nat (length (concat opss)).
Proof.
  induction opss as [|ops opss IH]; [reflexivity|].
  rewrite fmap_cons, sum_over_cons, IH. cbn -[Z.of_nat].
  rewrite length_app. lia.
Qed.

Lemma team_ok_start (sz : int_size) (v0 : Z) (opss : list (list Op)) :
  team_ok sz v0 opss (5 * Z.of_nat (length (concat opss))) (start sz v0 opss).
Proof.
  exists ((fun ops => Out ops []) <$> opss), []. split; [|split].
  - simpl. rewrite <- list_fmap_compose. reflexivity.
  - split; simpl.
    + apply length_fmap.
    + constructor.
    + intros i a Hi.
      apply list_lookup_fmap_Some_1 in Hi as (ops & -> & Hi).
      split; [exact Hi|reflexivity].
    + intros i a Hi.
      apply list_lookup_fmap_Some_1 in Hi as (ops & -> & Hi). exact I.
    + apply sum_over_all_out. reflexivity.
    + apply sum_over_all_out. reflexivity.
    + discriminate.
    + reflexivity.
  - simpl. rewrite place_left_start. lia.
Qed.

Lemma team_ok_step (sz : int_size) (v0 : Z) (opss : list (list Op)) (L : Z)
    (c c' : team) :
  team_ok sz v0 opss L c -> team_step c c' -> team_ok sz v0 opss (L - 1) c'.
Proof.
  intros (ps & h & Hts & Hinv & Hleft) Hstep.
  destruct Hstep as [ai ai' ts i p p' Hi Hp]. simpl in Hts, Hinv, Hleft.
  subst ts. apply list_lookup_fmap_Some_1 in Hi as (a & -> & Hi).
  assert (exists a' h',
            p' = place_term sz a'
            /\ team_inv sz v0 opss ai' (<[i:=a']> ps) h'
            /\ sum_over (place_left (val ai')) (<[i:=a']> ps) + 1
               <= sum_over (place_left (val ai)) ps)
    as (a' & h' & -> & Hinv' & Hleft').
  { destruct a as [[|o todo] got|t todo got|t todo got]; simpl in Hp.
    - discriminate.
    - destruct (team_inv_step_lock _ _ _ _ _ _ _ _ _ _ _ _ Hinv Hi Hp)
        as (a' & H'). eauto.
    - destruct (team_inv_step_writer _ _ _ _ _ _ _ _ _ _ _ _ Hinv Hi Hp)
        as (a' & H'). eauto.
    - destruct (team_inv_step_reader _ _ _ _ _ _ _ _ _ _ _ _ Hinv Hi Hp)
        as (a' & H'). eauto. }
  exists (<[i:=a']> ps), h'. split; [|split]; simpl.
  - symmetry. apply list_fmap_insert.
  - exact Hinv'.
  - lia.
Qed.

Lemma team_ok_nsteps (sz : int_size) (v0 : Z) (opss : list (list Op))
    (n : nat) (c : team) :
  nsteps team_step n (start sz v0 opss) c ->
  team_ok sz v0 opss (5 * Z.of_nat (length (concat opss)) - Z.of_nat n) c.
Proof.
  revert c. induction n as [|n IH]; intros c Hn.
  - inversion Hn; subst. rewrite Z.sub_0_r. apply team_ok_start.
  - apply nsteps_inv_r in Hn as (c0 & Hn & Hstep).
    replace (5 * Z.of_nat (length (concat opss)) - Z.of_nat (S n))
      with (5 * Z.of_nat (length (concat opss)) - Z.of_nat n - 1) by lia.
    eapply team_ok_step; [apply IH|]; eassumption.
Qed.

(** ** Many goroutines, any calls: the end and the way there *)

Lemma script_returned (sz : int_size) (todo : list Op) (got rs : list result) :
  script sz todo got = Ret rs -> todo = [] /\ got = rs.
Proof.
  destruct todo as [|o todo]; simpl.
  - intros [= ->]. split; reflexivity.
  - intros E. destruct (script_takes_lock sz o todo got) as (B & EB & _).
    simpl in EB. rewrite EB in E. destruct (takes_read_lock o); discriminate.
Qed.

(** A goroutine whose script has returned stands between calls, with no
    call left and its results in hand. *)
Lemma place_returned (sz : int_size) (v L : Z) (a : place) (rs : list result) :
  place_ok sz v L a -> place_term sz a = Ret rs -> a = Out [] rs.
Proof.
  destruct a as [todo got|t todo got|t todo got]; simpl.
  - intros _ E. apply script_returned in E as [-> ->]. reflexivity.
  - intros Hc ->. destruct Hc.
  - intros Hc ->. destruct Hc.
Qed.

Lemma team_inv_returned (sz : int_size) (v0 : Z) (opss : list (list Op))
    (ai : AtomicInt) (ps : list place) (h : list (nat * Op))
    (rss : list (list result)) :
  team_inv sz v0 opss ai ps h ->
  place_term sz <$> ps = Ret <$> rss ->
  ai = at_rest (value_after sz h.*2 v0)
  /\ forall i, (i < length opss)%nat ->
       opss !! i = Some (mine i h)
       /\ rss !! i
          = Some (mine i (zip h.*1 (results_after sz h.*2 v0))).
Proof.
  intros [Hlen Hids Hhist Hok Hw Hr Hwr Hval] Hret.
  assert (forall i a, ps !! i = Some a ->
            exists rs, rss !! i = Some rs /\ a = Out [] rs) as Hout.
  { intros i a Hi.
    pose proof (list_lookup_fmap_Some_2 (place_term sz) _ _ _ Hi) as Ht.
    rewrite Hret in Ht.
    apply list_lookup_fmap_Some_1 in Ht as (rs & Ht & Hrs).
    exists rs. split; [assumption|].
    eapply place_returned; [apply (Hok i a Hi)|exact Ht]. }
  assert (forall g : place -> Z, (forall rs, g (Out [] rs) = 0) ->
                                 sum_over g ps = 0) as Hzero.
  { intros g Hg. rewrite (sum_over_ext g (fun _ => 0) ps).
    - clear. induction ps as [|a ps IH]; [reflexivity|].
      rewrite sum_over_cons, IH. reflexivity.
    - intros i a Hi. destruct (Hout i a Hi) as (rs & _ & ->). apply Hg. }
  rewrite (Hzero isW) in Hw by reflexivity.
  rewrite (Hzero isR) in Hr by reflexivity.
  split.
  - destruct ai as [v [w r]]; cbn in *. destruct w; [lia|].
    rewrite (Hval eq_refl). replace r with O by lia. reflexivity.
  - intros i Hi. rewrite <- Hlen in Hi.
    destruct (lookup_lt_is_Some_2 ps i Hi) as [a Ha].
    destruct (Hout i a Ha) as (rs & Hrs & ->).
    destruct (Hhist i _ Ha) as [Hops Hgot]. cbn in Hops, Hgot.
    rewrite app_nil_r in Hops. rewrite Hrs, Hgot. split; [assumption|reflexivity].
Qed.

(** X6. Goroutines that share one struct and make any calls, their atomic
    actions interleaved in any order the mutex allows: when all have
    returned, the struct is at rest and there is an order of all the calls,
    keeping the order of each goroutine's own calls, such that one caller
    making the calls in that order leaves the same value and gets, call for
    call, the results the goroutines got. *)
Theorem team_serializable (sz : int_size) (v0 : Z) (opss : list (list Op))
    (n : nat) (ai : AtomicInt) (ts : list (Prog (list result)))
    (rss : list (list result)) :
  nsteps team_step n (start sz v0 opss) (ai, ts) ->
  ts = Ret <$> rss ->
  exists (h : list (nat * Op)) (rs : list result),
    run (script sz h.*2 []) (at_rest v0) = Done rs ai
    /\ Forall (fun e => (e.1 < length opss)%nat) h
    /\ forall i, (i < length opss)%nat ->
         opss !! i = Some (mine i h)
         /\ rss !! i = Some (mine i (zip h.*1 rs)).
Proof.
  intros Hn Hret.
  apply team_ok_nsteps in Hn as (ps & h & Hts & Hinv & _).
  simpl in Hts, Hinv. subst ts.
  destruct (team_inv_returned sz v0 opss ai ps h rss Hinv Hret)
    as [-> Hmine].
  exists h, (results_after sz h.*2 v0). split; [|split].
  - rewrite run_script. reflexivity.
  - apply Hinv.
  - exact Hmine.
Qed.

Lemma team_serializable_witness :
  nsteps team_step 12
    (start Int64 0 [[OpAddAndGet 5; OpGet]; [OpCompareAndSet 0 7]])
    (at_rest 12, [Ret [RInt 12; RInt 12]; Ret [RBool true]])
  /\ exists (h : list (nat * Op)) (rs : list result),
       run (script Int64 h.*2 []) (at_rest 0) = Done rs (at_rest 12)
       /\ Forall (fun e => (e.1 < 2)%nat) h
       /\ forall i, (i < 2)%nat ->
            [[OpAddAndGet 5; OpGet]; [OpCompareAndSet 0 7]] !! i
            = Some (mine i h)
            /\ [[RInt 12; RInt 12]; [RBool true]] !! i
               = Some (mine i (zip h.*1 rs)).
Proof.
  assert (nsteps team_step 12
            (start Int64 0 [[OpAddAndGet 5; OpGet]; [OpCompareAndSet 0 7]])
            (at_rest 12, [Ret [RInt 12; RInt 12]; Ret [RBool true]]))
    as Hsched.
  { do 4 (eapply nsteps_l;
          [eapply (team_step_at _ _ _ 1%nat); reflexivity|]).
    do 8 (eapply nsteps_l;
          [eapply (team_step_at _ _ _ 0%nat); reflexivity|]).
    apply nsteps_O. }
  split; [exact Hsched|].
  exact (team_serializable Int64 0 _ 12 _ _
           [[RInt 12; RInt 12]; [RBool true]] Hsched eq_refl).
Defined.

Lemma all_out_cases (sz : int_size) (ps : list place) :
  (forall j b, ps !! j = Some b -> exists todo got, b = Out todo got) ->
  (exists rss, place_term sz <$> ps = Ret <$> rss)
  \/ (exists i o todo got, ps !! i = Some (Out (o :: todo) got)).
Proof.
  induction ps as [|a ps IH]; intros Hout.
  - left. exists []. reflexivity.
  - destruct (Hout O a eq_refl) as ([|o todo] & got & ->).
    + destruct IH as [[rss Hrss]|(i & o & todo & got' & Hi)].
      * intros j b Hj. apply (Hout (S j) b Hj).
      * left. exists (got :: rss). rewrite !fmap_cons, Hrss. reflexivity.
      * right. exists (S i), o, todo, got'. exact Hi.
    + right. exists O, o, todo, got. reflexivity.
Qed.

(** Unless every script has returned some goroutine can take an action:
    the one inside a writing method, one of those inside [Get], or any that
    has a call left when none is inside. *)
Lemma team_inv_progress (sz : int_size) (v0 : Z) (opss : list (list Op))
    (ai : AtomicInt) (ps : list place) (h : list (nat * Op)) :
  team_inv sz v0 opss ai ps h ->
  (exists rss, place_term sz <$> ps = Ret <$> rss)
  \/ (exists c', team_step (ai, place_term sz <$> ps) c').
Proof.
  intros [Hlen Hids Hhist Hok Hw Hr Hwr Hval].
  assert (forall i a p' ai', ps !! i = Some a ->
            step1 (place_term sz a) ai = Next p' ai' ->
            exists c', team_step (ai, place_term sz <$> ps) c') as Hgo.
  { intros i a p' ai' Hi Hs. eexists.
    eapply (team_step_at ai ai' _ i); [|exact Hs].
    apply list_lookup_fmap_Some_2, Hi. }
  destruct (sync.writer (mutex ai)) eqn:Hwt.
  - right.
    destruct (sum_over_pos_lookup isW ps) as (i & a & Hi & Ha); [lia|].
    pose proof (Hok i a Hi) as Hc.
    destruct a as [todo got|t todo got|t todo got]; cbn in Ha; try lia.
    destruct t as [rs|k|k|k|k|f|z k]; cbn in Hc; try contradiction.
    + eapply (Hgo i _ _ _ Hi). cbn. unfold sync.Unlock. rewrite Hwt.
      reflexivity.
    + eapply (Hgo i _ _ _ Hi). reflexivity.
    + eapply (Hgo i _ _ _ Hi). reflexivity.
  - destruct (sync.readers (mutex ai)) as [|r] eqn:Hrd.
    + destruct (all_out_cases sz ps) as [Hret|(i & o & todo & got & Hi)].
      * intros j b Hj. apply place_is_out.
        -- eapply (sum_over_zero_lookup isW isW_nonneg); eassumption.
        -- eapply (sum_over_zero_lookup isR isR_nonneg); eassumption.
      * left. exact Hret.
      * right. destruct (script_takes_lock sz o todo got) as (B & EB & _).
        destruct (takes_read_lock o).
        -- eapply (Hgo i _ _ _ Hi). cbn [place_term]. rewrite EB. cbn.
           unfold sync.RLock. rewrite Hwt. reflexivity.
        -- eapply (Hgo i _ _ _ Hi). cbn [place_term]. rewrite EB. cbn.
           unfold sync.Lock. rewrite Hwt, Hrd. reflexivity.
    + right.
      destruct (sum_over_pos_lookup isR ps) as (i & a & Hi & Ha); [lia|].
      pose proof (Hok i a Hi) as Hc.
      destruct a as [todo got|t todo got|t todo got]; cbn in Ha; try lia.
      destruct t as [rs|k|k|k|k|f|z k]; cbn in Hc; try contradiction.
      * eapply (Hgo i _ _ _ Hi). cbn. unfold sync.RUnlock. rewrite Hrd.
        reflexivity.
      * eapply (Hgo i _ _ _ Hi). reflexivity.
Qed.

(** No goroutine is ever about to unlock a mutex that is not locked. *)
Lemma team_inv_no_panic (sz : int_size) (v0 : Z) (opss : list (list Op))
    (ai : AtomicInt) (ps : list place) (h : list (nat * Op)) (i : nat)
    (a : place) :
  team_inv sz v0 opss ai ps h ->
  ps !! i = Some a ->
  step1 (place_term sz a) ai <> Panics.
Proof.
  intros [Hlen Hids Hhist Hok Hw Hr Hwr Hval] Hi.
  pose proof (Hok i a Hi) as Hc.
  pose proof (sum_over_lookup_le isW isW_nonneg _ _ _ Hi) as HleW.
  pose proof (sum_over_lookup_le isR isR_nonneg _ _ _ Hi) as HleR.
  destruct a as [[|o todo] got|t todo got|t todo got]; cbn in HleW, HleR.
  - discriminate.
  - destruct (script_takes_lock sz o todo got) as (B & EB & _).
    cbn [place_term]. rewrite EB. destruct (takes_read_lock o); cbn.
    + unfold sync.RLock. destruct (sync.writer (mutex ai)); discriminate.
    + unfold sync.Lock.
      destruct (sync.writer (mutex ai)), (sync.readers (mutex ai));
        discriminate.
  - destruct t as [rs|k|k|k|k|f|z k]; cbn in Hc; try contradiction; cbn;
      try discriminate.
    unfold sync.Unlock. destruct (sync.writer (mutex ai)); [discriminate|lia].
  - destruct t as [rs|k|k|k|k|f|z k]; cbn in Hc; try contradiction; cbn;
      try discriminate.
    unfold sync.RUnlock. destruct (sync.readers (mutex ai)); [|discriminate].
    cbn in Hr. lia.
Qed.

Lemma team_ok_completes (sz : int_size) (v0 : Z) (opss : list (list Op))
    (k : nat) (c : team) :
  team_ok sz v0 opss (Z.of_nat k) c ->
  exists c' rss, rtc team_step c c' /\ c'.2 = Ret <$> rss.
Proof.
  revert c. induction k as [|k IH]; intros [ai ts] Hok;
    pose proof Hok as (ps & h & Hts & Hinv & Hleft); simpl in Hts, Hinv, Hleft;
    subst ts;
    pose proof (sum_over_nonneg _ (place_left_nonneg (val ai)) ps) as Hnn;
    destruct (team_inv_progress sz v0 opss ai ps h Hinv)
      as [[rss Hret]|[c1 Hstep]];
    try (exists (ai, place_term sz <$> ps), rss; split; [constructor|exact Hret]).
  - pose proof (team_ok_step _ _ _ _ _ _ Hok Hstep) as (ps1 & h1 & _ & _ & H1).
    pose proof (sum_over_nonneg _ (place_left_nonneg (val c1.1)) ps1). lia.
  - pose proof (team_ok_step _ _ _ _ _ _ Hok Hstep) as Hok1.
    replace (Z.of_nat (S k) - 1) with (Z.of_nat k) in Hok1 by lia.
    destruct (IH c1 Hok1) as (c' & rss & Hrun & Hret).
    exists c', rss. split; [|exact Hret].
    eapply rtc_l; eassumption.
Qed.

(** X7. Goroutines that share one struct and make any calls never come to
    a halt before their scripts have returned. After any [n] actions of
    any schedule: no goroutine is about to unlock an unlocked mutex; [n] is
    at most five times the number of calls; and the schedule can be
    continued until every script has returned. *)
Theorem team_completes (sz : int_size) (v0 : Z) (opss : list (list Op))
    (n : nat) (ai : AtomicInt) (ts : list (Prog (list result))) :
  nsteps team_step n (start sz v0 opss) (ai, ts) ->
  (forall i t, ts !! i = Some t -> step1 t ai <> Panics)
  /\ (n <= 5 * length (concat opss))%nat
  /\ exists c' rss, rtc team_step (ai, ts) c' /\ c'.2 = Ret <$> rss.
Proof.
  intros Hn. pose proof (team_ok_nsteps sz v0 opss n _ Hn) as Hok.
  pose proof Hok as (ps & h & Hts & Hinv & Hleft). simpl in Hts, Hinv, Hleft.
  pose proof (sum_over_nonneg _ (place_left_nonneg (val ai)) ps) as Hnn.
  split; [|split].
  - intros i t Hi. subst ts.
    apply list_lookup_fmap_Some_1 in Hi as (a & -> & Hi).
    eapply team_inv_no_panic; eassumption.
  - lia.
  - apply (team_ok_completes sz v0 opss (5 * length (concat opss) - n)).
    replace (Z.of_nat (5 * length (concat opss) - n))
      with (5 * Z.of_nat (length (concat opss)) - Z.of_nat n) by lia.
    exact Hok.
Qed.

Lemma team_completes_witness :
  exists ai ts,
    nsteps team_step 1 (start Int64 0 [[OpSet 3]; [OpGet]]) (ai, ts)
    /\ (forall i t, ts !! i = Some t -> step1 t ai <> Panics)
    /\ (1 <= 5 * length (concat [[OpSet 3]; [OpGet]]))%nat
    /\ exists c' rss, rtc team_step (ai, ts) c' /\ c'.2 = Ret <$> rss.
Proof.
  eexists _, _.
  assert (nsteps team_step 1 (start Int64 0 [[OpSet 3]; [OpGet]])
            (with_mutex {| sync.writer := true; sync.readers := 0 |}
               (at_rest 0),
             <[0%nat:=StoreVal 3 (Unlock (script Int64 [] [RNone]))]>
               ((fun ops => script Int64 ops []) <$> [[OpSet 3]; [OpGet]])))
    as Hsched.
  { eapply nsteps_l;
      [eapply (team_step_at _ _ _ 0%nat); reflexivity|apply nsteps_O]. }
  split; [exact Hsched|].
  exact (team_completes Int64 0 _ 1 _ _ Hsched).
Defined.

(** X8. No write of [val] is concurrent with any other access: in every
    team reached from [start], while the next action of one goroutine is a
    write of [val], every other goroutine is outside the methods, about to
    take a lock or returned. *)
Theorem no_data_race (sz : int_size) (v0 : Z) (opss : list (list Op))
    (n : nat) (ai : AtomicInt) (ts : list (Prog (list result)))
    (i j : nat) (p q : Prog (list result)) :
  nsteps team_step n (start sz v0 opss) (ai, ts) ->
  i <> j -> ts !! i = Some p -> ts !! j = Some q ->
  writes p -> outside q.
Proof.
  intros Hn Hij Hi Hj Hp.
  apply team_ok_nsteps in Hn as (ps & h & Hts & Hinv & _).
  simpl in Hts, Hinv. subst ts.
  apply list_lookup_fmap_Some_1 in Hi as (a & -> & Hi).
  apply list_lookup_fmap_Some_1 in Hj as (b & -> & Hj).
  destruct Hinv as [Hlen Hids Hhist Hok Hw Hr Hwr Hval].
  pose proof (Hok i a Hi) as Hc.
  assert (isW a = 1) as Ha.
  { destruct a as [[|o todo] got|t todo got|t todo got].
    - destruct Hp.
    - destruct (script_takes_lock sz o todo got) as (B & EB & _).
      cbn [place_term] in Hp. rewrite EB in Hp.
      destruct (takes_read_lock o); destruct Hp.
    - reflexivity.
    - destruct t; try destruct Hp. destruct Hc. }
  pose proof (writers_distinct ps i j a b Hij Hi Hj) as Hd.
  pose proof (sum_over_lookup_le isW isW_nonneg _ _ _ Hi) as Hle.
  pose proof (isW_nonneg b).
  assert (sync.writer (mutex ai) = true) as Hwt
    by (destruct (sync.writer (mutex ai)); [reflexivity|lia]).
  rewrite Hwt in Hw. rewrite (Hwr Hwt) in Hr.
  destruct (place_is_out b) as (todo & got & ->); [lia| |].
  - apply (sum_over_zero_lookup isR isR_nonneg ps j b); assumption.
  - destruct todo as [|o todo]; [exact I|].
    destruct (script_takes_lock sz o todo got) as (B & EB & _).
    cbn [place_term]. rewrite EB. destruct (takes_read_lock o); exact I.
Qed.

Lemma no_data_race_witness :
  nsteps team_step 1 (start Int64 0 [[OpSet 3]; [OpGet]])
    (with_mutex {| sync.writer := true; sync.readers := 0 |} (at_rest 0),
     [StoreVal 3 (Unlock (script Int64 [] [RNone])); script Int64 [OpGet] []])
  /\ writes (StoreVal 3 (Unlock (script Int64 [] [RNone])))
  /\ outside (script Int64 [OpGet] []).
Proof.
  assert (nsteps team_step 1 (start Int64 0 [[OpSet 3]; [OpGet]])
            (with_mutex {| sync.writer := true; sync.readers := 0 |}
               (at_rest 0),
             [StoreVal 3 (Unlock (script Int64 [] [RNone]));
              script Int64 [OpGet] []]))
    as Hsched.
  { eapply nsteps_l;
      [eapply (team_step_at _ _ _ 0%nat); reflexivity|apply nsteps_O]. }
  split; [exact Hsched|]. split; [exact I|].
  refine (no_data_race Int64 0 _ 1 _ _ 0 1
            (StoreVal 3 (Unlock (script Int64 [] [RNone])))
            (script Int64 [OpGet] []) Hsched _ _ _ I);
    [discriminate|reflexivity|reflexivity].
Defined.

(** ** Many goroutines that add *)

Lemma sum_over_plus {A : Type} (f g : A -> Z) (l : list A) :
  sum_over (fun a => f a + g a) l = sum_over f l + sum_over g l.
Proof.
  induction l as [|a l IH]; [reflexivity|].
  rewrite !sum_over_cons, IH. lia.
Qed.

Lemma sum_over_fmap {A B : Type} (f : B -> Z) (g : A -> B) (l : list A) :
  sum_over f (g <$> l) = sum_over (fun a => f (g a)) l.
Proof.
  induction l as [|a l IH]; [reflexivity|].
  rewrite fmap_cons, !sum_over_cons, IH. reflexivity.
Qed.

Lemma sum_over_zero {A : Type} (l : list A) :
  sum_over (fun _ => 0) l = 0.
Proof.
  induction l as [|a l IH]; [reflexivity|].
  rewrite sum_over_cons, IH. reflexivity.
Qed.

Lemma sum_over_indicator (j : nat) (x : Z) (s N : nat) :
  (s <= j < s + N)%nat ->
  sum_over (fun i => if decide (j = i) then x else 0) (seq s N) = x.
Proof.
  revert s. induction N as [|N IH]; intros s Hj; [lia|].
  change (seq s (S N)) with (s :: seq (S s) N). rewrite sum_over_cons.
  destruct (decide (j = s)) as [->|Hne].
  - rewrite (sum_over_ext _ (fun _ => 0)).
    + rewrite sum_over_zero. lia.
    + intros i a Hi. apply lookup_seq in Hi as [-> _].
      destruct (decide (s = (S s + i)%nat)); [lia|reflexivity].
  - rewrite IH by lia. lia.
Qed.

Lemma delta_sum_cons (o : Op) (ops : list Op) :
  delta_sum (o :: ops) = default 0 (delta_of o) + delta_sum ops.
Proof. reflexivity. Qed.

(** The amounts of a history add up goroutine by goroutine. *)
Lemma delta_sum_history (N : nat) (h : list (nat * Op)) :
  Forall (fun e => (e.1 < N)%nat) h ->
  delta_sum h.*2 = sum_over (fun i => delta_sum (mine i h)) (seq 0 N).
Proof.
  induction 1 as [|[j o] h Hj Hh IH].
  - simpl. rewrite sum_over_zero. reflexivity.
  - rewrite fmap_cons. simpl snd. rewrite delta_sum_cons, IH.
    rewrite (sum_over_ext (fun i => delta_sum (mine i ((j, o) :: h)))
               (fun i => (if decide (j = i) then default 0 (delta_of o) else 0)
                         + delta_sum (mine i h))).
    + rewrite sum_over_plus, sum_over_indicator; [reflexivity|].
      simpl in Hj. lia.
    + intros k i _. simpl mine.
      destruct (decide (j = i)); [apply delta_sum_cons|lia].
Qed.

Lemma mine_elem {X : Type} (h : list (nat * X)) (j : nat) (x : X) :
  (j, x) ∈ h -> x ∈ mine j h.
Proof.
  induction h as [|[i y] h IH]; intros Hin.
  - inversion Hin.
  - simpl. apply elem_of_cons in Hin as [[= <- <-]|Hin].
    + destruct (decide (j = j)); [left|congruence].
    + destruct (decide (i = j)); [right|]; apply IH, Hin.
Qed.

(** Adding calls add up, modulo the width of [int]. *)
Lemma value_after_adds (sz : int_size) (ops : list Op) (v : Z) :
  is_int sz v ->
  Forall (fun o => is_Some (delta_of o)) ops ->
  value_after sz ops v = wrap sz (v + delta_sum ops).
Proof.
  intros Hv Hops. revert v Hv.
  induction Hops as [|o ops Ho Hops IH]; intros v Hv.
  - change (delta_sum []) with 0. simpl.
    rewrite Z.add_0_r, wrap_id; [reflexivity|assumption].
  - rewrite delta_sum_cons. cbn [value_after].
    destruct o as [ |w|w|d|d| | | | |e u]; cbn [table_effect delta_of default];
      try (destruct Ho as [? Hx]; discriminate Hx);
      unfold int_add, int_sub, id;
      try (rewrite IH by apply wrap_is_int; rewrite wrap_add_l; f_equal; lia).
    rewrite IH by assumption. f_equal.
Qed.

(** What holds of every goroutine's calls holds of the calls of the
    history. *)
Lemma history_Forall (P : Op -> Prop) (opss : list (list Op))
    (h : list (nat * Op)) :
  Forall (Forall P) opss ->
  Forall (fun e => (e.1 < length opss)%nat) h ->
  (forall i, (i < length opss)%nat -> opss !! i = Some (mine i h)) ->
  Forall P h.*2.
Proof.
  intros HP Hids Hmine.
  apply Forall_fmap, Forall_forall. intros [j o] Hin. simpl.
  pose proof (proj1 (Forall_forall _ _) Hids _ Hin) as Hj. simpl in Hj.
  pose proof (proj1 (Forall_lookup _ _) HP j _ (Hmine j Hj)) as Hall.
  apply (proj1 (Forall_forall _ _) Hall). apply mine_elem, Hin.
Qed.

Lemma history_delta_sum (opss : list (list Op)) (h : list (nat * Op)) :
  Forall (fun e => (e.1 < length opss)%nat) h ->
  (forall i, (i < length opss)%nat -> opss !! i = Some (mine i h)) ->
  sum_over delta_sum opss = delta_sum h.*2.
Proof.
  intros Hids Hmine.
  rewrite (delta_sum_history (length opss) h Hids).
  assert (opss = (fun i => mine i h) <$> seq 0 (length opss)) as E.
  { apply list_eq. intros i. rewrite list_lookup_fmap.
    destruct (decide (i < length opss)%nat) as [Hi|Hi].
    - rewrite (Hmine i Hi), lookup_seq_lt by assumption. reflexivity.
    - rewrite lookup_ge_None_2 by lia.
      rewrite lookup_seq_ge by lia. reflexivity. }
  rewrite E at 1. apply sum_over_fmap.
Qed.

(** X9. No update is lost, whatever is added: when goroutines that make,
    in all, any calls of [Get] and of the six adding methods on a struct
    that held the [int] [v0] have all returned, the struct is at rest and
    holds [v0] plus all the amounts added, as the Go [int] it is; a [Get]
    returns it. *)
Theorem concurrent_adds_sum (sz : int_size) (v0 : Z) (opss : list (list Op))
    (n : nat) (ai : AtomicInt) (ts : list (Prog (list result)))
    (rss : list (list result)) :
  is_int sz v0 ->
  Forall (Forall (fun o => is_Some (delta_of o))) opss ->
  nsteps team_step n (start sz v0 opss) (ai, ts) ->
  ts = Ret <$> rss ->
  ai = at_rest (wrap sz (v0 + sum_over delta_sum opss))
  /\ run Get ai = Done (wrap sz (v0 + sum_over delta_sum opss)) ai.
Proof.
  intros Hv Hadd Hn Hret.
  apply team_ok_nsteps in Hn as (ps & h & Hts & Hinv & _).
  simpl in Hts, Hinv. subst ts.
  destruct (team_inv_returned sz v0 opss ai ps h rss Hinv Hret)
    as [-> Hmine].
  pose proof (ti_ids _ _ _ _ _ _ Hinv) as Hids.
  assert (forall i, (i < length opss)%nat -> opss !! i = Some (mine i h))
    as Hops by (intros i Hi; apply (Hmine i Hi)).
  rewrite (history_delta_sum opss h Hids Hops).
  rewrite (value_after_adds sz _ v0 Hv (history_Forall _ _ _ Hadd Hids Hops)).
  split; reflexivity.
Qed.

Lemma concurrent_adds_sum_witness :
  nsteps team_step 10
    (start Int32 2147483647 [[OpIncrementAndGet]; [OpAddAndGet (-1)]])
    (at_rest 2147483647,
     [Ret [RInt (-2147483648)]; Ret [RInt 2147483647]])
  /\ run Get (at_rest 2147483647) = Done 2147483647 (at_rest 2147483647).
Proof.
  assert (nsteps team_step 10
            (start Int32 2147483647 [[OpIncrementAndGet]; [OpAddAndGet (-1)]])
            (at_rest 2147483647,
             [Ret [RInt (-2147483648)]; Ret [RInt 2147483647]]))
    as Hsched.
  { do 5 (eapply nsteps_l;
          [eapply (team_step_at _ _ _ 0%nat); reflexivity|]).
    do 5 (eapply nsteps_l;
          [eapply (team_step_at _ _ _ 1%nat); reflexivity|]).
    apply nsteps_O. }
  split; [exact Hsched|].
  assert (is_int Int32 2147483647) as Hv by (vm_compute; split; discriminate).
  assert (Forall (Forall (fun o => is_Some (delta_of o)))
            [[OpIncrementAndGet]; [OpAddAndGet (-1)]]) as Hadd
    by (repeat constructor; eexists; reflexivity).
  destruct (concurrent_adds_sum Int32 2147483647 _ 10 _ _
              [[RInt (-2147483648)]; [RInt 2147483647]]
              Hv Hadd Hsched eq_refl) as [_ Hget].
  exact Hget.
Defined.

(** ** Many goroutines that draw numbers *)

Lemma wrap_inj_near (sz : int_size) (a b : Z) :
  wrap sz a = wrap sz b -> - modulus sz < a - b < modulus sz -> a = b.
Proof.
  intros E Hnear.
  destruct (wrap_quot sz a) as [q Ea], (wrap_quot sz b) as [q' Eb].
  pose proof (modulus_pos sz).
  assert (a - b = (q' - q) * modulus sz) as Hd by lia.
  assert (q' - q = 0) by nia. nia.
Qed.

(** Calls of [IncrementAndGet] made one after the other return the numbers
    that follow the value, in order. *)
Lemma results_after_incs (sz : int_size) (ops : list Op) (v : Z) :
  Forall (fun o => o = OpIncrementAndGet) ops ->
  results_after sz ops v
  = (fun k => RInt (wrap sz (v + Z.of_nat k))) <$> seq 1 (length ops).
Proof.
  intros Hops. revert v.
  induction Hops as [|o ops -> Hops IH]; intros v; [reflexivity|].
  cbn [results_after table_returns table_effect length].
  change (seq 1 (S (length ops))) with (1%nat :: seq 2 (length ops)).
  rewrite fmap_cons, IH, <- (fmap_S_seq 1), <- list_fmap_compose.
  f_equal. apply list_fmap_ext. intros i k _. cbn -[Z.of_nat].
  unfold int_add. rewrite wrap_add_l. do 2 f_equal. lia.
Qed.

Lemma incs_NoDup (sz : int_size) (v : Z) (n : nat) :
  Z.of_nat n <= modulus sz ->
  NoDup ((fun k => RInt (wrap sz (v + Z.of_nat k))) <$> seq 1 n).
Proof.
  intros Hn. apply NoDup_fmap_2_strong; [|apply NoDup_seq].
  intros x y Hx Hy [= E].
  apply elem_of_seq in Hx, Hy.
  apply wrap_inj_near in E; lia.
Qed.

Lemma delta_sum_incs (ops : list Op) :
  Forall (fun o => o = OpIncrementAndGet) ops ->
  delta_sum ops = Z.of_nat (length ops).
Proof.
  induction 1 as [|o ops -> Hops IH]; [reflexivity|].
  rewrite delta_sum_cons, IH. cbn -[Z.of_nat]. lia.
Qed.

Lemma sum_over_delta_incs (opss : list (list Op)) :
  Forall (Forall (fun o => o = OpIncrementAndGet)) opss ->
  sum_over delta_sum opss = Z.of_nat (length (concat opss)).
Proof.
  induction 1 as [|ops opss Hops Hopss IH]; [reflexivity|].
  rewrite sum_over_cons, IH, (delta_sum_incs ops Hops). simpl concat.
  rewrite length_app. lia.
Qed.

Lemma mine_sublist {X : Type} (i : nat) (l : list (nat * X)) :
  mine i l `sublist_of` l.*2.
Proof.
  induction l as [|[j x] l IH]; simpl; [constructor|].
  destruct (decide (j = i)); [apply sublist_skip|apply sublist_cons];
    exact IH.
Qed.

Lemma mine_elem_inv {X : Type} (i : nat) (l : list (nat * X)) (x : X) :
  x ∈ mine i l -> (i, x) ∈ l.
Proof.
  induction l as [|[j y] l IH]; simpl; [intros Hin; inversion Hin|].
  destruct (decide (j = i)) as [->|Hne].
  - intros [->|Hin]%elem_of_cons; [left|right; apply IH, Hin].
  - intros Hin. right. apply IH, Hin.
Qed.

Lemma NoDup_snd_owner {X : Type} (l : list (nat * X)) (i j : nat) (x : X) :
  NoDup l.*2 -> (i, x) ∈ l -> (j, x) ∈ l -> i = j.
Proof.
  induction l as [|[k y] l IH]; simpl; intros Hnd Hi Hj.
  - inversion Hi.
  - apply NoDup_cons in Hnd as [Hy Hnd].
    apply elem_of_cons in Hi as [Ei|Hi];
      apply elem_of_cons in Hj as [Ej|Hj]; simplify_eq.
    + reflexivity.
    + contradict Hy. apply (list_elem_of_fmap_2 snd _ _ Hj).
    + contradict Hy. apply (list_elem_of_fmap_2 snd _ _ Hi).
    + apply IH; assumption.
Qed.

(** X10. [IncrementAndGet] hands out a number once: when goroutines that
    call nothing but [IncrementAndGet], no more than [2 ^ bits] times in
    all, have all returned, no goroutine has got a number twice and no two
    goroutines have got the same number. *)
Theorem unique_numbers (sz : int_size) (v0 : Z) (opss : list (list Op))
    (n : nat) (ai : AtomicInt) (ts : list (Prog (list result)))
    (rss : list (list result)) :
  Forall (Forall (fun o => o = OpIncrementAndGet)) opss ->
  Z.of_nat (length (concat opss)) <= modulus sz ->
  nsteps team_step n (start sz v0 opss) (ai, ts) ->
  ts = Ret <$> rss ->
  (forall i res, rss !! i = Some res -> NoDup res)
  /\ (forall i j res res' r,
        rss !! i = Some res -> rss !! j = Some res' ->
        r ∈ res -> r ∈ res' -> i = j).
Proof.
  intros Hincs Hfew Hn Hret.
  apply team_ok_nsteps in Hn as (ps & h & Hts & Hinv & _).
  simpl in Hts, Hinv. subst ts.
  destruct (team_inv_returned sz v0 opss ai ps h rss Hinv Hret)
    as [_ Hmine].
  pose proof (ti_ids _ _ _ _ _ _ Hinv) as Hids.
  assert (forall i, (i < length opss)%nat -> opss !! i = Some (mine i h))
    as Hops by (intros i Hi; apply (Hmine i Hi)).
  pose proof (history_Forall _ _ _ Hincs Hids Hops) as Hh.
  assert (Z.of_nat (length h.*2) = Z.of_nat (length (concat opss))) as Hlen.
  { rewrite <- (delta_sum_incs _ Hh), <- (history_delta_sum opss h Hids Hops).
    apply sum_over_delta_incs, Hincs. }
  assert (NoDup (results_after sz h.*2 v0)) as Hnd.
  { rewrite (results_after_incs sz _ v0 Hh). apply incs_NoDup. lia. }
  assert (length rss = length opss) as Hlrss.
  { rewrite <- (ti_len _ _ _ _ _ _ Hinv).
    rewrite <- (length_fmap Ret rss), <- Hret, length_fmap. reflexivity. }
  assert ((zip h.*1 (results_after sz h.*2 v0)).*2
          = results_after sz h.*2 v0) as Hsnd.
  { apply snd_zip. rewrite results_after_length, !length_fmap. lia. }
  assert (forall i res, rss !! i = Some res ->
            res = mine i (zip h.*1 (results_after sz h.*2 v0))) as Hres.
  { intros i res Hi.
    assert (i < length opss)%nat as Hlt
      by (rewrite <- Hlrss; eapply lookup_lt_Some, Hi).
    destruct (Hmine i Hlt) as [_ E]. congruence. }
  split.
  - intros i res Hi. rewrite (Hres i res Hi).
    eapply sublist_NoDup; [|apply mine_sublist]. rewrite Hsnd. exact Hnd.
  - intros i j res res' r Hi Hj Hr Hr'.
    rewrite (Hres i res Hi) in Hr. rewrite (Hres j res' Hj) in Hr'.
    apply mine_elem_inv in Hr, Hr'.
    eapply NoDup_snd_owner; [|eassumption..]. rewrite Hsnd. exact Hnd.
Qed.

Lemma unique_numbers_witness :
  nsteps team_step 15
    (start Int32 2147483646
       [[OpIncrementAndGet; OpIncrementAndGet]; [OpIncrementAndGet]])
    (at_rest (-2147483647),
     [Ret [RInt 2147483647; RInt (-2147483647)]; Ret [RInt (-2147483648)]])
  /\ (forall i res,
        [[RInt 2147483647; RInt (-2147483647)]; [RInt (-2147483648)]] !! i
        = Some res -> NoDup res)
  /\ (forall i j res res' r,
        [[RInt 2147483647; RInt (-2147483647)]; [RInt (-2147483648)]] !! i
        = Some res ->
        [[RInt 2147483647; RInt (-2147483647)]; [RInt (-2147483648)]] !! j
        = Some res' ->
        r ∈ res -> r ∈ res' -> i = j).
Proof.
  assert (nsteps team_step 15
            (start Int32 2147483646
               [[OpIncrementAndGet; OpIncrementAndGet]; [OpIncrementAndGet]])
            (at_rest (-2147483647),
             [Ret [RInt 2147483647; RInt (-2147483647)];
              Ret [RInt (-2147483648)]]))
    as Hsched.
  { do 5 (eapply nsteps_l;
          [eapply (team_step_at _ _ _ 0%nat); reflexivity|]).
    do 5 (eapply nsteps_l;
          [eapply (team_step_at _ _ _ 1%nat); reflexivity|]).
    do 5 (eapply nsteps_l;
          [eapply (team_step_at _ _ _ 0%nat); reflexivity|]).
    apply nsteps_O. }
  split; [exact Hsched|].
  refine (unique_numbers Int32 2147483646 _ 15 _ _
            [[RInt 2147483647; RInt (-2147483647)]; [RInt (-2147483648)]]
            _ _ Hsched eq_refl).
  - repeat constructor.
  - vm_compute. discriminate.
Defined.

(** ** Many goroutines that try the same [CompareAndSet] *)

Lemma mine_zip_length {X Y : Type} (i : nat) (h : list (nat * X))
    (rs : list Y) :
  length rs = length h ->
  length (mine i (zip h.*1 rs)) = length (mine i h).
Proof.
  revert rs. induction h as [|[j x] h IH]; intros [|r rs] Hlen;
    try discriminate; [reflexivity|].
  simpl. destruct (decide (j = i)); simpl; rewrite IH by (simpl in Hlen; lia);
    reflexivity.
Qed.

Lemma mine_zip_elem {Y : Type} (i : nat) (ids : list nat) (rs : list Y)
    (r : Y) :
  r ∈ mine i (zip ids rs) -> r ∈ rs.
Proof.
  revert rs. induction ids as [|j ids IH]; intros [|y rs]; simpl;
    try (intros Hin; inversion Hin; fail).
  destruct (decide (j = i)).
  - intros [->|Hin]%elem_of_cons; [left|right; apply IH, Hin].
  - intros Hin. right. apply IH, Hin.
Qed.

(** Once the value is not the expected one, every [CompareAndSet] that
    expects it fails and leaves the value. *)
Lemma results_after_losers (sz : int_size) (e v : Z) (ops : list Op) :
  v <> e ->
  Forall (fun o => exists u, o = OpCompareAndSet e u) ops ->
  value_after sz ops v = v
  /\ Forall (fun r => r = RBool false) (results_after sz ops v).
Proof.
  intros Hne. induction 1 as [|o ops [u ->] Hops [IHv IHr]]; simpl.
  - split; [reflexivity|constructor].
  - destruct (Z.eqb_spec v e) as [|_]; [contradiction|].
    split; [exact IHv|]. constructor; [reflexivity|exact IHr].
Qed.

(** X11. One winner: when goroutines that each make the one call
    [CompareAndSet v0 u], each with a [u] other than [v0], on a struct that
    held [v0], have all returned, exactly one of them has got [true], the
    struct holds that goroutine's [u], and every other has got [false]. *)
Theorem one_winner (sz : int_size) (v0 : Z) (us : list Z) (n : nat)
    (ai : AtomicInt) (ts : list (Prog (list result)))
    (rss : list (list result)) :
  us <> [] ->
  Forall (fun u => u <> v0) us ->
  nsteps team_step n
    (start sz v0 ((fun u => [OpCompareAndSet v0 u]) <$> us)) (ai, ts) ->
  ts = Ret <$> rss ->
  exists w u,
    us !! w = Some u
    /\ ai = at_rest u
    /\ rss !! w = Some [RBool true]
    /\ forall i, i <> w -> (i < length us)%nat ->
         rss !! i = Some [RBool false].
Proof.
  intros Hus Hne Hn Hret.
  apply team_ok_nsteps in Hn as (ps & h & Hts & Hinv & _).
  simpl in Hts, Hinv. subst ts.
  destruct (team_inv_returned sz v0 _ ai ps h rss Hinv Hret) as [-> Hmine].
  pose proof (ti_ids _ _ _ _ _ _ Hinv) as Hids.
  rewrite length_fmap in Hmine, Hids.
  assert (forall i u, us !! i = Some u ->
            mine i h = [OpCompareAndSet v0 u]
            /\ rss !! i
               = Some (mine i (zip h.*1 (results_after sz h.*2 v0))))
    as Hcall.
  { intros i u Hi. destruct (Hmine i (lookup_lt_Some _ _ _ Hi)) as [Hops Hrs].
    rewrite list_lookup_fmap, Hi in Hops. simpl in Hops.
    split; [congruence|exact Hrs]. }
  assert (Forall (fun o => exists u, o = OpCompareAndSet v0 u) h.*2) as Hcas.
  { apply (history_Forall _ ((fun u => [OpCompareAndSet v0 u]) <$> us) h).
    - apply Forall_fmap, Forall_forall. intros u _. simpl.
      constructor; [eauto|constructor].
    - rewrite length_fmap. exact Hids.
    - rewrite length_fmap. intros i Hi. apply (Hmine i Hi). }
  destruct h as [|[w o] h].
  { destruct us as [|u us]; [contradiction|].
    destruct (Hcall O u eq_refl) as [[=] _]. }
  apply Forall_cons in Hids as [Hw Hids]. simpl in Hw.
  destruct (lookup_lt_is_Some_2 us w Hw) as [u Hu].
  destruct (Hcall w u Hu) as [Hmw Hrw].
  simpl in Hmw. destruct (decide (w = w)) as [_|]; [|congruence].
  injection Hmw as -> Hmw.
  rewrite !fmap_cons in Hcas. simpl in Hcas.
  apply Forall_cons in Hcas as [_ Hcas].
  pose proof (proj1 (Forall_lookup _ _) Hne w u Hu) as Huv. simpl in Huv.
  destruct (results_after_losers sz v0 u h.*2 Huv Hcas) as [Hval Hfalse].
  assert (forall i, mine i (zip (w :: h.*1)
                      (results_after sz
                         (OpCompareAndSet v0 u :: h.*2) v0))
                    = (if decide (w = i) then [RBool true] else [])
                      ++ mine i (zip h.*1 (results_after sz h.*2 u))) as Hzip.
  { intros i. simpl. rewrite Z.eqb_refl.
    destruct (decide (w = i)); reflexivity. }
  exists w, u. split; [exact Hu|]. split; [|split].
  - rewrite fmap_cons. cbn [snd value_after table_effect].
    rewrite Z.eqb_refl, Hval. reflexivity.
  - rewrite Hrw. rewrite !fmap_cons. simpl fst. simpl snd. rewrite Hzip.
    destruct (decide (w = w)) as [_|]; [|congruence].
    assert (mine w (zip h.*1 (results_after sz h.*2 u)) = []) as ->;
      [|reflexivity].
    apply length_zero_iff_nil.
    rewrite mine_zip_length, Hmw by
      (rewrite results_after_length, length_fmap; reflexivity).
    reflexivity.
  - intros i Hi Hlt.
    destruct (lookup_lt_is_Some_2 us i Hlt) as [u' Hu'].
    destruct (Hcall i u' Hu') as [Hmi Hri].
    rewrite Hri. rewrite !fmap_cons. simpl fst. simpl snd. rewrite Hzip.
    simpl in Hmi.
    destruct (decide (w = i)) as [|_]; [congruence|]. simpl.
    pose proof (mine_zip_length i h (results_after sz h.*2 u)) as Hlen.
    rewrite Hmi in Hlen. simpl in Hlen.
    specialize (Hlen ltac:(rewrite results_after_length, length_fmap;
                           reflexivity)).
    destruct (mine i (zip h.*1 (results_after sz h.*2 u)))
      as [|r [|r' l]] eqn:E; try discriminate.
    assert (r ∈ results_after sz h.*2 u) as Hr.
    { apply (mine_zip_elem i h.*1). rewrite E. left. }
    rewrite (proj1 (Forall_forall _ _) Hfalse r Hr). reflexivity.
Qed.

Lemma one_winner_witness :
  nsteps team_step 7
    (start Int64 0 ((fun u => [OpCompareAndSet 0 u]) <$> [7; 9]))
    (at_rest 9, [Ret [RBool false]; Ret [RBool true]])
  /\ exists w u,
       [7; 9] !! w = Some u
       /\ at_rest 9 = at_rest u
       /\ [[RBool false]; [RBool true]] !! w = Some [RBool true]
       /\ forall i, i <> w -> (i < 2)%nat ->
            [[RBool false]; [RBool true]] !! i = Some [RBool false].
Proof.
  assert (nsteps team_step 7
            (start Int64 0 ((fun u => [OpCompareAndSet 0 u]) <$> [7; 9]))
            (at_rest 9, [Ret [RBool false]; Ret [RBool true]]))
    as Hsched.
  { do 4 (eapply nsteps_l;
          [eapply (team_step_at _ _ _ 1%nat); reflexivity|]).
    do 3 (eapply nsteps_l;
          [eapply (team_step_at _ _ _ 0%nat); reflexivity|]).
    apply nsteps_O. }
  split; [exact Hsched|].
  refine (one_winner Int64 0 [7; 9] 7 _ _ [[RBool false]; [RBool true]]
            _ _ Hsched eq_refl).
  - discriminate.
  - repeat constructor; discriminate.
Defined.
